(** * The locator of a Cocaine node: catalog, peers and routing

    A shallow embedding of [src/locator.cpp].  The facade [locator_t] keeps the
    local catalog, the port pool, the router, the gateway, the peer registry
    and the synchronize feed; its callbacks run on one reactor.  Every member
    function becomes a function on an explicit state record; a C++ exception
    is an [outcome] carrying the state the throw leaves behind.

    Collaborators that live outside the file (actors, the gateway, the
    storage, sockets, the msgpack decoder, the random generator) appear
    through the calls the file makes on them: their answers are inputs of the
    functions, their calls are recorded in the state. *)

From stdpp Require Import gmap strings list fin_maps.
From Stdlib Require Import ZArith.

Local Open Scope string_scope.
Local Open Scope list_scope.

(** ** Exceptions and outcomes *)

(** The exception classes the file throws, catches or lets through. *)
Inductive exception : Type :=
  | error_t (what : string)           (* cocaine::error_t *)
  | storage_error_t (what : string)   (* cocaine::storage_error_t *)
  | system_error (code : Z) (what : string) (* std::system_error *)
  | unpack_error (what : string)      (* msgpack::unpack_error *)
  | type_error                        (* msgpack::type_error *)
  | foreign_exception (what : string). (* any other std::exception *)

#[global] Instance exception_eq_dec : EqDecision exception.
Proof. solve_decision. Defined.

(** How a call on the locator ends.  [Thrown e s]: the exception [e] leaves
    the function with the state [s].  [Aborted]: a failed [BOOST_VERIFY] in a
    checked build ends the process.  [Undefined]: the call dereferences a
    null pointer. *)
Inductive outcome (S : Type) : Type :=
  | Returned (s : S)
  | Thrown (e : exception) (s : S)
  | Aborted
  | Undefined.
Arguments Returned {S} s.
Arguments Thrown {S} e s.
Arguments Aborted {S}.
Arguments Undefined {S}.

(** [BOOST_VERIFY(e)] asserts [e] in a checked build and only evaluates it
    under [NDEBUG]. *)
Inductive build_t : Type := checked | NDEBUG.

(** ** Logging *)

Inductive priority : Type := log_debug | log_info | log_warning | log_error.

Inductive log_arg : Type :=
  | arg_s (s : string)
  | arg_d (z : Z)
  | arg_endpoint (e : string * Z).

(** One [COCAINE_LOG_*] call: priority, format string, arguments. *)
Definition log_entry : Type := priority * string * list log_arg.

(** ** Addresses, peer keys, ports *)

(** [io::tcp::endpoint]: address and port. *)
Definition endpoint : Type := string * Z.

(** [key_type]: the announced tuple (uuid, hostname, locator port). *)
Definition key_type : Type := string * string * Z.

Definition key_uuid (key : key_type) : string := key.1.1.
Definition key_hostname (key : key_type) : string := key.1.2.
Definition key_port (key : key_type) : Z := key.2.

(** [unsigned int] arithmetic of the group weights wraps at 2^32. *)
Definition uint_max : Z := 2 ^ 32.
Definition wrap_uint (z : Z) : Z := z mod uint_max.

(** The free ports, [m_ports].  Its declaration is in the header; the file
    uses [empty], [top], [pop] and [push] only, so the container adaptor is
    an interface here. *)
Class PortPool (P : Type) : Type := {
  pool_empty : P → bool;
  pool_top : P → Z;
  pool_pop : P → P;
  pool_push : Z → P → P
}.

(** A last-in first-out pool over a list. *)
#[global] Instance stack_pool : PortPool (list Z) := {|
  pool_empty := λ p, match p with [] => true | _ => false end;
  pool_top := λ p, hd 0%Z p;
  pool_pop := λ p, tl p;
  pool_push := λ x p, x :: p
|}.

(** ** The group index *)

(** [group_index_t]: the three parallel vectors and the cached sum. *)
Record group_index_t : Type := {
  group_services : list string;
  group_weights : list Z;
  group_used_weights : list Z;
  group_sum : Z
}.

(** Modelled from the spec: the constructor of [group_index_t] from a
    weighted map is in routing.inl, which is not among the sources.  The
    three vectors have equal length, every used weight starts at 0. *)
Definition group_index_of (group : gmap string Z) : group_index_t :=
  let entries := map_to_list group in
  {| group_services := entries.*1;
     group_weights := entries.*2;
     group_used_weights := replicate (length entries) 0%Z;
     group_sum := 0 |}.

(** Modelled from the spec: [group_index_t::add] is in routing.inl.
    mark_present sets used[i] to declared[i] and updates the sum by the
    change of used[i]; a position outside the group is a no-op. *)
Definition group_add (service_index : nat) (g : group_index_t) : group_index_t :=
  match group_weights g !! service_index, group_used_weights g !! service_index with
  | Some w, Some u =>
      {| group_services := group_services g;
         group_weights := group_weights g;
         group_used_weights := <[service_index := w]> (group_used_weights g);
         group_sum := wrap_uint (group_sum g - u + w) |}
  | _, _ => g
  end.

(** Modelled from the spec: [group_index_t::remove] is in routing.inl.
    mark_absent sets used[i] to 0 and updates the sum. *)
Definition group_remove (service_index : nat) (g : group_index_t) : group_index_t :=
  match group_used_weights g !! service_index with
  | Some u =>
      {| group_services := group_services g;
         group_weights := group_weights g;
         group_used_weights := <[service_index := 0%Z]> (group_used_weights g);
         group_sum := wrap_uint (group_sum g - u) |}
  | None => g
  end.

(** Modelled from the spec: the draw of a group is in routing.inl.  Scan the
    services accumulating used weights until the running sum exceeds [r]. *)
Fixpoint group_scan (services : list string) (used : list Z) (r acc : Z) : option string :=
  match services, used with
  | s :: services', u :: used' =>
      if bool_decide (r < acc + u)%Z then Some s
      else group_scan services' used' r (acc + u)%Z
  | _, _ => None
  end.

(** [r] is the next output of the generator; the distribution reduces it
    into [0, sum).  An empty group (sum 0) has no pick. *)
Definition group_pick (r : Z) (g : group_index_t) : option string :=
  if bool_decide (group_sum g = 0%Z) then None
  else group_scan (group_services g) (group_used_weights g) (r mod group_sum g) 0.

(** ** The router

    The class [router_t] and its nested [groups_t] are declared in
    [locator.cpp]; their member functions are in routing.inl. *)

(** [router_t::groups_t]: [m_groups] maps a group name to its index,
    [m_inverted] maps a service to the groups that list it and its position
    in each. *)
Record groups_t : Type := {
  groups_index : gmap string group_index_t;
  groups_inverted : gmap string (gmap string nat)
}.

Definition groups_empty : groups_t :=
  {| groups_index := ∅; groups_inverted := ∅ |}.

(** For every group that lists [name], apply [f] at the position of [name]. *)
Definition groups_touch (f : nat → group_index_t → group_index_t)
    (name : string) (gs : groups_t) : groups_t :=
  let positions := default ∅ (groups_inverted gs !! name) in
  {| groups_index :=
       map_imap (λ group g,
         Some (match positions !! group with Some i => f i g | None => g end))
         (groups_index gs);
     groups_inverted := groups_inverted gs |}.

(** Modelled from the spec: [groups_t::add_service] and [remove_service] are
    in routing.inl.  They mark the service present, or absent, in every
    group that lists it. *)
Definition groups_add_service : string → groups_t → groups_t :=
  groups_touch group_add.

Definition groups_remove_service : string → groups_t → groups_t :=
  groups_touch group_remove.

(** Modelled from the spec: [groups_t::remove_group] is in routing.inl. *)
Definition groups_remove_group (name : string) (gs : groups_t) : groups_t :=
  {| groups_index := delete name (groups_index gs);
     groups_inverted := delete name <$> groups_inverted gs |}.

(** The used weights of a fresh index: position [i] is marked when
    [present] holds of its service. *)
Definition group_seed (present : string → bool) (g : group_index_t) : group_index_t :=
  foldl (λ acc i,
           match group_services g !! i with
           | Some s => if present s then group_add i acc else acc
           | None => acc
           end)
        g (seq 0 (length (group_services g))).

(** Modelled from the spec: [groups_t::add_group] is in routing.inl.  It
    replaces a group of the same name and rebuilds the used weights from
    [present], which the router instantiates with its forward index. *)
Definition groups_add_group (present : string → bool) (name : string)
    (group : gmap string Z) (gs : groups_t) : groups_t :=
  let gs0 := groups_remove_group name gs in
  let g := group_seed present (group_index_of group) in
  {| groups_index := <[name := g]> (groups_index gs0);
     groups_inverted :=
       foldl (λ inv p, <[p.2 := <[name := p.1]> (default ∅ (inv !! p.2))]> inv)
             (groups_inverted gs0) (imap pair (group_services g)) |}.

(** Modelled from the spec: [groups_t::select_service] is in routing.inl.
    A group name is resolved by a draw; an empty or unknown group falls back
    to the name itself. *)
Definition groups_select_service (r : Z) (group_name : string) (gs : groups_t) : string :=
  match groups_index gs !! group_name with
  | Some g => default group_name (group_pick r g)
  | None => group_name
  end.

Section router.
Context {descriptor : Type} `{!EqDecision descriptor}.

(** [synchronize_result_type]: a node's snapshot, name to descriptor. *)
Definition synchronize_result_type : Type := gmap string descriptor.

(** [router_t::services_vector_t]. *)
Definition services_vector_t : Type := list (string * descriptor).

(** [router_t]: [m_services] is the forward index (service to the uuids of
    the remote nodes that have it), [m_inverted] the inverted index (uuid to
    its services), [m_groups] the routing groups. *)
Record router_t : Type := {
  router_services : gmap string (gset string);
  router_inverted : gmap string (gmap string descriptor);
  router_groups : groups_t
}.

Definition router_empty : router_t :=
  {| router_services := ∅; router_inverted := ∅; router_groups := groups_empty |}.

(** The uuids that offer [name]. *)
Definition router_providers (name : string) (r : router_t) : gset string :=
  default ∅ (router_services r !! name).

(** Modelled from the spec: [router_t::has] is in routing.inl.  The router's
    part of it: the forward index lists a provider of [name]. *)
Definition router_has (name : string) (r : router_t) : bool :=
  bool_decide (router_providers name r ≠ ∅).

(** Modelled from the spec: the private [router_t::add] is in routing.inl.
    Both indices are updated; the groups are touched on the first presence. *)
Definition router_add (uuid name : string) (info : descriptor) (r : router_t) : router_t :=
  {| router_services :=
       <[name := {[uuid]} ∪ router_providers name r]> (router_services r);
     router_inverted :=
       <[uuid := <[name := info]> (default ∅ (router_inverted r !! uuid))]>
         (router_inverted r);
     router_groups :=
       if router_has name r then router_groups r
       else groups_add_service name (router_groups r) |}.

(** Modelled from the spec: the private [router_t::remove] is in routing.inl.
    Both indices are updated; the groups are touched on the last absence. *)
Definition router_remove (uuid name : string) (r : router_t) : router_t :=
  let uuids := router_providers name r ∖ {[uuid]} in
  {| router_services :=
       if bool_decide (uuids = ∅) then delete name (router_services r)
       else <[name := uuids]> (router_services r);
     router_inverted := alter (delete name) uuid (router_inverted r);
     router_groups :=
       if bool_decide (uuids = ∅) then groups_remove_service name (router_groups r)
       else router_groups r |}.

(** Modelled from the spec: [router_t::add_local] is in routing.inl.  Every
    group that lists [name] marks it present. *)
Definition add_local (name : string) (r : router_t) : router_t :=
  {| router_services := router_services r;
     router_inverted := router_inverted r;
     router_groups := groups_add_service name (router_groups r) |}.

(** Modelled from the spec: [router_t::remove_local] is in routing.inl.  The
    groups keep [name] present while a remote node still provides it. *)
Definition remove_local (name : string) (r : router_t) : router_t :=
  if router_has name r then r
  else {| router_services := router_services r;
          router_inverted := router_inverted r;
          router_groups := groups_remove_service name (router_groups r) |}.

(** The two halves of the difference between a snapshot and what the router
    holds for the node: identity of an entry is name and descriptor. *)
Definition diff_added (current dump : gmap string descriptor) : services_vector_t :=
  filter (λ p, current !! p.1 ≠ Some p.2) (map_to_list dump).

Definition diff_removed (current dump : gmap string descriptor) : services_vector_t :=
  filter (λ p, dump !! p.1 ≠ Some p.2) (map_to_list current).

(** Modelled from the spec: [router_t::update_remote] is in routing.inl.
    Returns (added, removed) and the updated router; a changed descriptor is
    in both lists. *)
Definition update_remote (uuid : string) (dump : synchronize_result_type)
    (r : router_t) : (services_vector_t * services_vector_t) * router_t :=
  let current := default ∅ (router_inverted r !! uuid) in
  let added := diff_added current dump in
  let removed := diff_removed current dump in
  let r1 := foldl (λ acc p, router_remove uuid p.1 acc) r removed in
  let r2 := foldl (λ acc p, router_add uuid p.1 p.2 acc) r1 added in
  ((added, removed), r2).

(** Modelled from the spec: [router_t::remove_remote] is in routing.inl.  The
    node leaves every index at once; what it offered is returned. *)
Definition remove_remote (uuid : string) (r : router_t)
    : gmap string descriptor * router_t :=
  let removed := default ∅ (router_inverted r !! uuid) in
  let services' :=
    omap (λ uuids, let rest := uuids ∖ {[uuid]} in
                   if bool_decide (rest = ∅) then None else Some rest)
         (router_services r) in
  (removed,
   {| router_services := services';
      router_inverted := delete uuid (router_inverted r);
      router_groups :=
        foldr (λ name gs,
                 match services' !! name with
                 | None => groups_remove_service name gs
                 | Some _ => gs
                 end)
              (router_groups r) (map_to_list removed).*1 |}).

(** Modelled from the spec: [router_t::add_group] is in routing.inl.  The
    used weights are rebuilt from the forward index. *)
Definition add_group (name : string) (group : gmap string Z) (r : router_t) : router_t :=
  {| router_services := router_services r;
     router_inverted := router_inverted r;
     router_groups :=
       groups_add_group (λ s, router_has s r) name group (router_groups r) |}.

(** Modelled from the spec: [router_t::remove_group] is in routing.inl. *)
Definition remove_group (name : string) (r : router_t) : router_t :=
  {| router_services := router_services r;
     router_inverted := router_inverted r;
     router_groups := groups_remove_group name (router_groups r) |}.

(** Modelled from the spec: [router_t::select_service] is in routing.inl. *)
Definition select_service (r : Z) (name : string) (router : router_t) : string :=
  groups_select_service r name (router_groups router).

End router.
Arguments router_t : clear implicits.
Arguments synchronize_result_type : clear implicits.
Arguments services_vector_t : clear implicits.

(** ** The facade's state *)

(** [m_context.config.network]: what the file reads of the configuration. *)
Record context_t : Type := {
  network_uuid : string;
  network_hostname : string;
  network_locator : Z;
  network_endpoint : string;
  network_ports : option (Z * Z)
}.

(** [deferred_erase_action<decltype(m_remotes)>]: its target is always
    [m_remotes], so the action is its key. *)
Record deferred_erase_action : Type := { erase_key : key_type }.

(** [remote_t]: the channel to the peer (the endpoint it is connected to and
    the requests written on it) and the heartbeat timeout (the seconds it is
    armed for, if armed). *)
Record remote_t : Type := {
  channel : endpoint * list string;
  timeout : option Z
}.

Section locator.
Context {descriptor : Type} `{!EqDecision descriptor}.
Context {pool : Type} `{!PortPool pool}.

(** [actor_t], as the locator uses it: [metadata()], [location()] and
    [run(endpoints)], which binds the actor or throws. *)
Record actor_t : Type := {
  metadata : descriptor;
  location : list endpoint;
  actor_bind : list endpoint → exception + list endpoint
}.

Definition actor_run (service : actor_t) (endpoints : list endpoint)
    : exception + actor_t :=
  match actor_bind service endpoints with
  | inl e => inl e
  | inr bound =>
      inr {| metadata := metadata service;
             location := bound;
             actor_bind := actor_bind service |}
  end.

(** The calls the locator makes on [api::gateway_t] that change it. *)
Inductive gateway_call : Type :=
  | consume (uuid name : string) (info : descriptor)
  | cleanup (uuid name : string).

(** The gateway: the calls made on it so far, and the answer its [resolve]
    gives after a history of calls. *)
Record gateway_t : Type := {
  gateway_answer : list gateway_call → string → exception + descriptor;
  gateway_calls : list gateway_call
}.

Definition gateway_resolve (g : gateway_t) (name : string) : exception + descriptor :=
  gateway_answer g (gateway_calls g) name.

(** [synchronize_slot_t]: each upstream with the frames sent to it. *)
Record synchronize_slot_t : Type := {
  m_upstreams : list (list (synchronize_result_type descriptor))
}.

(** Modelled from the spec: [synchronize_slot_t::update] is in
    synchronization.inl.  One frame, the current snapshot, goes to every
    upstream. *)
Definition synchronizer_update (snapshot : synchronize_result_type descriptor)
    (s : synchronize_slot_t) : synchronize_slot_t :=
  {| m_upstreams := (λ frames, frames ++ [snapshot]) <$> m_upstreams s |}.

(** [locator_t].  [m_reactor] is the queue of actions posted on the
    reactor, [m_announce] the buffers handed to the announce socket's
    [write], [m_announce_timer] the (after, repeat) seconds the timer is
    started with. *)
Record locator_t : Type := {
  m_context : context_t;
  m_log : list log_entry;
  m_reactor : list deferred_erase_action;
  m_router : router_t descriptor;
  m_services : list (string * actor_t);
  m_ports : pool;
  m_gateway : option gateway_t;
  m_remotes : gmap key_type remote_t;
  m_synchronizer : option synchronize_slot_t;
  m_announce : list string;
  m_announce_timer : option (Z * Z)
}.

Definition set_log (v : list log_entry) (st : locator_t) : locator_t :=
  {| m_context := m_context st; m_log := v; m_reactor := m_reactor st;
     m_router := m_router st; m_services := m_services st; m_ports := m_ports st;
     m_gateway := m_gateway st; m_remotes := m_remotes st;
     m_synchronizer := m_synchronizer st; m_announce := m_announce st;
     m_announce_timer := m_announce_timer st |}.

Definition set_reactor (v : list deferred_erase_action) (st : locator_t) : locator_t :=
  {| m_context := m_context st; m_log := m_log st; m_reactor := v;
     m_router := m_router st; m_services := m_services st; m_ports := m_ports st;
     m_gateway := m_gateway st; m_remotes := m_remotes st;
     m_synchronizer := m_synchronizer st; m_announce := m_announce st;
     m_announce_timer := m_announce_timer st |}.

Definition set_router (v : router_t descriptor) (st : locator_t) : locator_t :=
  {| m_context := m_context st; m_log := m_log st; m_reactor := m_reactor st;
     m_router := v; m_services := m_services st; m_ports := m_ports st;
     m_gateway := m_gateway st; m_remotes := m_remotes st;
     m_synchronizer := m_synchronizer st; m_announce := m_announce st;
     m_announce_timer := m_announce_timer st |}.

Definition set_services (v : list (string * actor_t)) (st : locator_t) : locator_t :=
  {| m_context := m_context st; m_log := m_log st; m_reactor := m_reactor st;
     m_router := m_router st; m_services := v; m_ports := m_ports st;
     m_gateway := m_gateway st; m_remotes := m_remotes st;
     m_synchronizer := m_synchronizer st; m_announce := m_announce st;
     m_announce_timer := m_announce_timer st |}.

Definition set_ports (v : pool) (st : locator_t) : locator_t :=
  {| m_context := m_context st; m_log := m_log st; m_reactor := m_reactor st;
     m_router := m_router st; m_services := m_services st; m_ports := v;
     m_gateway := m_gateway st; m_remotes := m_remotes st;
     m_synchronizer := m_synchronizer st; m_announce := m_announce st;
     m_announce_timer := m_announce_timer st |}.

Definition set_gateway (v : option gateway_t) (st : locator_t) : locator_t :=
  {| m_context := m_context st; m_log := m_log st; m_reactor := m_reactor st;
     m_router := m_router st; m_services := m_services st; m_ports := m_ports st;
     m_gateway := v; m_remotes := m_remotes st;
     m_synchronizer := m_synchronizer st; m_announce := m_announce st;
     m_announce_timer := m_announce_timer st |}.

Definition set_remotes (v : gmap key_type remote_t) (st : locator_t) : locator_t :=
  {| m_context := m_context st; m_log := m_log st; m_reactor := m_reactor st;
     m_router := m_router st; m_services := m_services st; m_ports := m_ports st;
     m_gateway := m_gateway st; m_remotes := v;
     m_synchronizer := m_synchronizer st; m_announce := m_announce st;
     m_announce_timer := m_announce_timer st |}.

Definition set_synchronizer (v : option synchronize_slot_t) (st : locator_t) : locator_t :=
  {| m_context := m_context st; m_log := m_log st; m_reactor := m_reactor st;
     m_router := m_router st; m_services := m_services st; m_ports := m_ports st;
     m_gateway := m_gateway st; m_remotes := m_remotes st;
     m_synchronizer := v; m_announce := m_announce st;
     m_announce_timer := m_announce_timer st |}.

Definition set_announce (v : list string) (st : locator_t) : locator_t :=
  {| m_context := m_context st; m_log := m_log st; m_reactor := m_reactor st;
     m_router := m_router st; m_services := m_services st; m_ports := m_ports st;
     m_gateway := m_gateway st; m_remotes := m_remotes st;
     m_synchronizer := m_synchronizer st; m_announce := v;
     m_announce_timer := m_announce_timer st |}.

Definition set_announce_timer (v : option (Z * Z)) (st : locator_t) : locator_t :=
  {| m_context := m_context st; m_log := m_log st; m_reactor := m_reactor st;
     m_router := m_router st; m_services := m_services st; m_ports := m_ports st;
     m_gateway := m_gateway st; m_remotes := m_remotes st;
     m_synchronizer := m_synchronizer st; m_announce := m_announce st;
     m_announce_timer := v |}.

(** [COCAINE_LOG_*(m_log, format, args...)]. *)
Definition log (p : priority) (format : string) (args : list log_arg)
    (st : locator_t) : locator_t :=
  set_log (m_log st ++ [(p, format, args)]) st.

(** ** Local services: attach, resolve, dump *)

(** [std::find_if(m_services.begin(), m_services.end(), match { name })]:
    the first entry whose name is [name]. *)
Definition find_service (name : string) (services : list (string * actor_t))
    : option (string * actor_t) :=
  list_find (λ service, name = service.1) services ≫= λ found, Some found.2.

(** [locator_t::dump]: [result[it->first] = it->second->metadata()] over the
    catalog in order. *)
Definition dump (st : locator_t) : synchronize_result_type descriptor :=
  foldl (λ result service, <[service.1 := metadata service.2]> result)
        ∅ (m_services st).

(** The port of [service->location().front()]. *)
Definition front_port (service : actor_t) : Z :=
  match location service with
  | e :: _ => e.2
  | [] => 0%Z
  end.

(** The port allocation of [attach]: with a configured pool, throw when it
    is empty, else take its top and pop it; without one, port 0. *)
Definition allocate_port (st : locator_t) : exception + (Z * locator_t) :=
  match network_ports (m_context st) with
  | Some _ =>
      if pool_empty (m_ports st)
      then inl (error_t "no ports left for allocation")
      else inr (pool_top (m_ports st), set_ports (pool_pop (m_ports st)) st)
  | None => inr (0%Z, st)
  end.

(** [locator_t::attach].  [from_string] is
    [boost::asio::ip::address::from_string], which throws on a malformed
    address. *)
Definition attach (build : build_t) (from_string : string → exception + string)
    (name : string) (service : actor_t) (st : locator_t) : outcome locator_t :=
  match build, find_service name (m_services st) with
  | checked, Some _ => Aborted
  | _, _ =>
      match allocate_port st with
      | inl e => Thrown e st
      | inr (port, st1) =>
          match from_string (network_endpoint (m_context st1)) with
          | inl e => Thrown e st1
          | inr address =>
              match actor_run service [(address, port)] with
              | inl e => Thrown e st1
              | inr running =>
                  let st2 :=
                    log log_info "service '%s' published on port %d"
                        [arg_s name; arg_d (front_port running)] st1 in
                  let st3 := set_services (m_services st2 ++ [(name, running)]) st2 in
                  let st4 := set_router (add_local name (m_router st3)) st3 in
                  Returned
                    match m_synchronizer st4 with
                    | Some s =>
                        set_synchronizer (Some (synchronizer_update (dump st4) s)) st4
                    | None => st4
                    end
              end
          end
      end
  end.

(** Which way [resolve] answers. *)
Inductive route_t : Type :=
  | route_local (service : actor_t)
  | route_gateway (g : gateway_t)
  | route_unavailable.

(** The branches of [locator_t::resolve] for the selected [target]: a local
    service first, then the gateway if there is one. *)
Definition resolve_route (target : string) (st : locator_t) : route_t :=
  match find_service target (m_services st) with
  | Some local => route_local local.2
  | None =>
      match m_gateway st with
      | Some g => route_gateway g
      | None => route_unavailable
      end
  end.

(** [locator_t::resolve].  [r] is the generator's output, should
    [select_service] draw. *)
Definition resolve (r : Z) (name : string) (st : locator_t) : exception + descriptor :=
  let target := select_service r name (m_router st) in
  match resolve_route target st with
  | route_local local => inr (metadata local)
  | route_gateway g => gateway_resolve g target
  | route_unavailable => inl (error_t "the specified service is not available")
  end.

(** [locator_t::refresh].  [to_map] is [group_t(m_context, name).to_map()]:
    the group read from the storage, or the exception the read throws. *)
Definition refresh (to_map : string → exception + gmap string Z)
    (name : string) (st : locator_t) : outcome locator_t :=
  match to_map name with
  | inr group => Returned (set_router (add_group name group (m_router st)) st)
  | inl (storage_error_t what) =>
      let st1 :=
        log log_info "unable to read group '%s' from storage - %s"
            [arg_s name; arg_s what] st in
      Returned (set_router (remove_group name (m_router st1)) st1)
  | inl e => Thrown e st
  end.

(** ** The announce timer *)

(** The lines of [locator_t::connect] that arm the announce timer:
    [m_announce_timer->start(0.0f, 5.0f)]. *)
Definition start_announce_timer (st : locator_t) : locator_t :=
  set_announce_timer (Some (0%Z, 5%Z)) st.

(** An [ev::timer] started with (after, repeat) fires first after [after]
    seconds and then every [repeat] seconds: the time of its n-th tick. *)
Definition timer_tick_time (timer : Z * Z) (n : nat) : Z :=
  (timer.1 + Z.of_nat n * timer.2)%Z.

(** The key this node announces. *)
Definition announced_key (st : locator_t) : key_type :=
  (network_uuid (m_context st), network_hostname (m_context st),
   network_locator (m_context st)).

(** [locator_t::on_announce_timer].  [pack] is the msgpack packer on a
    [key_type]; [write] is the announce socket's [write]: the count it
    returns and the error code it sets, for the buffer it is given. *)
Definition on_announce_timer (pack : key_type → string)
    (write : string → Z * option (Z * string)) (st : locator_t) : locator_t :=
  let buffer := pack (announced_key st) in
  let st1 := set_announce (m_announce st ++ [buffer]) st in
  let '(written, ec) := write buffer in
  if bool_decide (written ≠ Z.of_nat (String.length buffer)) then
    match ec with
    | Some (value, message) =>
        log log_error "unable to announce the node - [%d] %s"
            [arg_d value; arg_s message] st1
    | None => log log_error "unable to announce the node" [] st1
    end
  else st1.

(** Successive ticks of the timer, each with the behaviour of the socket at
    that tick. *)
Definition announce_ticks (pack : key_type → string)
    (writes : list (string → Z * option (Z * string))) (st : locator_t) : locator_t :=
  foldl (λ acc write, on_announce_timer pack write acc) st writes.

(** ** Peers *)

(** The messages [on_message] tells apart by [message.id()]. *)
Inductive message_t : Type :=
  | rpc_chunk (payload : string)
  | rpc_error
  | rpc_choke
  | rpc_other (id : Z).

Definition gateway_record (calls : list gateway_call) (g : gateway_t) : gateway_t :=
  {| gateway_answer := gateway_answer g;
     gateway_calls := gateway_calls g ++ calls |}.

(** A run of [m_gateway->...] calls.  With no call nothing is dereferenced;
    with one, [m_gateway] must not be null. *)
Definition gateway_apply (calls : list gateway_call) (st : locator_t)
    : outcome locator_t :=
  match calls, m_gateway st with
  | [], _ => Returned st
  | _, Some g => Returned (set_gateway (Some (gateway_record calls g)) st)
  | _, None => Undefined
  end.

(** [m_reactor.post(action)]. *)
Definition post (action : deferred_erase_action) (st : locator_t) : locator_t :=
  set_reactor (m_reactor st ++ [action]) st.

(** [target.erase(key)] on [m_remotes]. *)
Definition erase_remote (key : key_type) (st : locator_t) : locator_t :=
  set_remotes (delete key (m_remotes st)) st.

(** The reactor runs the actions posted so far, in order, once the callback
    that posted them has returned. *)
Definition run_posted (st : locator_t) : locator_t :=
  foldl (λ acc action, erase_remote (erase_key action) acc)
        (set_reactor [] st) (m_reactor st).

(** What the three closing paths share:
    [removed = m_router->remove_remote(uuid)], then
    [m_gateway->cleanup(uuid, it->first)] over [removed].  The loop visits
    each name of the map once; the order among the names is that of
    [map_to_list]. *)
Definition drop_remote (uuid : string) (st : locator_t) : outcome locator_t :=
  let '(removed, router) := remove_remote uuid (m_router st) in
  gateway_apply (cleanup uuid <$> (map_to_list removed).*1) (set_router router st).

(** [locator_t::on_message].  [unpack] is the msgpack decoding of a chunk
    into a snapshot, which throws on a malformed payload. *)
Definition on_message
    (unpack : string → exception + synchronize_result_type descriptor)
    (key : key_type) (message : message_t) (st : locator_t) : outcome locator_t :=
  let uuid := key_uuid key in
  match message with
  | rpc_chunk payload =>
      match unpack payload with
      | inl e => Thrown e st
      | inr snapshot =>
          let '(diff, router) := update_remote uuid snapshot (m_router st) in
          gateway_apply
            (((λ it, cleanup uuid it.1) <$> diff.2)
               ++ ((λ it, consume uuid it.1 it.2) <$> diff.1))
            (set_router router st)
      end
  | rpc_error | rpc_choke =>
      let st1 := log log_info "node '%s' has been shut down" [arg_s uuid] st in
      match drop_remote uuid st1 with
      | Returned st2 => Returned (post {| erase_key := key |} st2)
      | failed => failed
      end
  | rpc_other id =>
      Returned (log log_error "dropped unknown type %d synchronization message"
                    [arg_d id] st)
  end.

(** [locator_t::on_failure]. *)
Definition on_failure (key : key_type) (ec : option (Z * string))
    (st : locator_t) : outcome locator_t :=
  let uuid := key_uuid key in
  let st1 :=
    match ec with
    | Some (value, message) =>
        log log_warning "node '%s' has unexpectedly disconnected - [%d] %s"
            [arg_s uuid; arg_d value; arg_s message] st
    | None =>
        log log_warning "node '%s' has unexpectedly disconnected" [arg_s uuid] st
    end in
  match drop_remote uuid st1 with
  | Returned st2 => Returned (erase_remote key st2)
  | failed => failed
  end.

(** [locator_t::on_timeout]. *)
Definition on_timeout (key : key_type) (st : locator_t) : outcome locator_t :=
  let uuid := key_uuid key in
  let st1 := log log_warning "node '%s' has timed out" [arg_s uuid] st in
  match drop_remote uuid st1 with
  | Returned st2 => Returned (erase_remote key st2)
  | failed => failed
  end.

(** The loop of [on_announce_event] over the resolved endpoints: the first
    endpoint that connects; a [std::system_error] is logged and the next
    endpoint tried, any other exception leaves the loop. *)
Fixpoint connect_first (connect : endpoint → option exception) (uuid : string)
    (endpoints : list endpoint) (st : locator_t)
    : outcome (option endpoint * locator_t) :=
  match endpoints with
  | [] => Returned (None, st)
  | it :: rest =>
      match connect it with
      | None => Returned (Some it, st)
      | Some (system_error code what) =>
          connect_first connect uuid rest
            (log log_warning "unable to connect to node '%s' via endpoint '%s' - [%d] %s"
                 [arg_s uuid; arg_endpoint it; arg_d code; arg_s what] st)
      | Some e => Thrown e (None, st)
      end
  end.

(** The end of [on_announce_event]: the heartbeat of [key] is stopped and
    started again for 60 seconds. *)
Definition reset_heartbeat (key : key_type) (st : locator_t) : locator_t :=
  let st1 :=
    log log_debug "resetting the heartbeat timeout for node '%s'"
        [arg_s (key_uuid key)] st in
  set_remotes
    (alter (λ remote, {| channel := channel remote; timeout := Some 60%Z |})
           key (m_remotes st1))
    st1.

(** The branch of [on_announce_event] for a key that is not in [m_remotes]:
    resolve, connect, bind, insert the entry, write the synchronize
    request.  [None]: the function returned early with that state. *)
Definition discover (query : string → Z → exception + list endpoint)
    (connect : endpoint → option exception) (key : key_type) (st : locator_t)
    : outcome (option unit * locator_t) :=
  let uuid := key_uuid key in
  let st1 :=
    log log_info "discovered node '%s' on '%s:%d'"
        [arg_s uuid; arg_s (key_hostname key); arg_d (key_port key)] st in
  match query (key_hostname key) (key_port key) with
  | inl (system_error code what) =>
      Returned (None,
                log log_error "unable to resolve node '%s' endpoints - [%d] %s"
                    [arg_s uuid; arg_d code; arg_s what] st1)
  | inl e => Thrown e (None, st1)
  | inr endpoints =>
      match connect_first connect uuid endpoints st1 with
      | Returned (Some connected, st2) =>
          Returned (Some (),
                    set_remotes
                      (<[key := {| channel := (connected, ["synchronize"]);
                                   timeout := None |}]> (m_remotes st2))
                      st2)
      | Returned (None, st2) =>
          Returned (None,
                    log log_error "unable to connect to node '%s'"
                        [arg_s (key_hostname key)] st2)
      | Thrown e (_, st2) => Thrown e (None, st2)
      | Aborted => Aborted
      | Undefined => Undefined
      end
  end.

(** [locator_t::on_announce_event].  [size], [ec] and [buffers] are what
    [m_sink->read] returns, sets and fills; [unpack] decodes a key; [query]
    is [io::resolver<io::tcp>::query]; [connect] builds a channel on an
    endpoint ([None]) or throws. *)
Definition on_announce_event (unpack : string → exception + key_type)
    (query : string → Z → exception + list endpoint)
    (connect : endpoint → option exception)
    (size : Z) (ec : option (Z * string)) (buffers : string)
    (st : locator_t) : outcome locator_t :=
  if bool_decide (size ≤ 0)%Z then
    Returned
      match ec with
      | Some (value, message) =>
          log log_error "unable to receive an announce - [%d] %s"
              [arg_d value; arg_s message] st
      | None => st
      end
  else
    match unpack buffers with
    | inl (unpack_error _) | inl type_error =>
        Returned (log log_error "unable to decode an announce" [] st)
    | inl e => Thrown e st
    | inr key =>
        match m_remotes st !! key with
        | Some _ => Returned (reset_heartbeat key st)
        | None =>
            match discover query connect key st with
            | Returned (Some _, st1) => Returned (reset_heartbeat key st1)
            | Returned (None, st1) => Returned st1
            | Thrown e (_, st1) => Thrown e st1
            | Aborted => Aborted
            | Undefined => Undefined
            end
        end
    end.

End locator.
Arguments actor_t : clear implicits.
Arguments gateway_call : clear implicits.
Arguments gateway_t : clear implicits.
Arguments synchronize_slot_t : clear implicits.
Arguments locator_t : clear implicits.
Arguments route_t : clear implicits.

(** ** Construction, detach, disconnect, disposal *)

(** [e.what()]. *)
Definition exception_what (e : exception) : string :=
  match e with
  | error_t w | storage_error_t w | system_error _ w | unpack_error w
  | foreign_exception w => w
  | type_error => "std::bad_cast"
  end.

(** [uint16_t] arithmetic on ports wraps at 2^16. *)
Definition wrap_uint16 (z : Z) : Z := z mod 65536.

Section lifecycle.
Context {descriptor : Type} `{!EqDecision descriptor}.
Context {pool : Type} `{!PortPool pool}.

(** The loop of the constructor over the configured range,
    [while(min != max) { m_ports.push(--max); }], on [uint16_t] values.
    [fuel] bounds the iterations. *)
Fixpoint push_ports (fuel : nat) (min max : Z) (ports : pool) : option pool :=
  if bool_decide (min = max) then Some ports
  else
    match fuel with
    | O => None
    | S fuel' =>
        let max' := wrap_uint16 (max - 1) in
        push_ports fuel' min max' (pool_push max' ports)
    end.

(** The loop of the constructor over the group names the storage lists:
    each group is read and added; the first read that throws ends it. *)
Fixpoint add_groups (to_map : string → exception + gmap string Z)
    (groups : list string) (r : router_t descriptor)
    : exception + router_t descriptor :=
  match groups with
  | [] => inr r
  | name :: rest =>
      match to_map name with
      | inl e => inl e
      | inr group => add_groups to_map rest (add_group name group r)
      end
  end.

(** The [try] block of the constructor.  [find] is
    [api::storage(context, "core")->find("groups", ...)].  Whatever is
    thrown, the router is replaced by a fresh one. *)
Definition load_groups (find : exception + list string)
    (to_map : string → exception + gmap string Z)
    : router_t descriptor * list log_entry :=
  let failed e :=
    (router_empty,
     [(log_info, "unable to read groups from storage: %s", [arg_s (exception_what e)])]) in
  match find with
  | inl e => failed e
  | inr [] =>
      (router_empty, [(log_info, "there is no routing groups to load", [])])
  | inr groups =>
      match add_groups to_map groups router_empty with
      | inl e => failed e
      | inr r => (r, [])
      end
  end.

(** [locator_t::locator_t].  [fresh] is the default-constructed [m_ports].
    The range of the configuration is read into two [uint16_t]; the loop
    has at most 65535 iterations, which is the fuel it is given. *)
Definition construct (context : context_t) (find : exception + list string)
    (to_map : string → exception + gmap string Z) (fresh : pool)
    : option (locator_t descriptor pool) :=
  let '(router, loading) := load_groups find to_map in
  let log1 :=
    (log_info, "this node's id is '%s'", [arg_s (network_uuid context)])
      :: loading in
  let built log ports :=
    {| m_context := context; m_log := log; m_reactor := [];
       m_router := router; m_services := []; m_ports := ports;
       m_gateway := None; m_remotes := ∅; m_synchronizer := None;
       m_announce := []; m_announce_timer := None |} in
  match network_ports context with
  | None => Some (built log1 fresh)
  | Some (lower, upper) =>
      let min := wrap_uint16 lower in
      let max := wrap_uint16 upper in
      ports ← push_ports (Z.to_nat 65535) min max fresh;
      Some (built
              (log1 ++ [(log_info, "%u locator ports available, %u through %u",
                         [arg_d (max - min); arg_d min; arg_d max])])
              ports)
  end.

(** The loop of the destructor,
    [while(!m_services.empty()) { back().second->terminate(); pop_back(); }]:
    what is left of the catalog and the names terminated so far, in order.
    [fuel] bounds the iterations. *)
Fixpoint terminate_back (fuel : nat) (services : list (string * actor_t descriptor))
    (terminated : list string)
    : list (string * actor_t descriptor) * list string :=
  match last services, fuel with
  | None, _ => (services, terminated)
  | Some _, O => (services, terminated)
  | Some back, S fuel' =>
      terminate_back fuel' (removelast services) (terminated ++ [back.1])
  end.

(** [locator_t::~locator_t]: the names of the services it terminates, in
    order, and the locator it leaves. *)
Definition destroy (st : locator_t descriptor pool)
    : list string * locator_t descriptor pool :=
  match m_services st with
  | [] => ([], st)
  | _ =>
      let size := length (m_services st) in
      let st1 :=
        log log_warning "disposing of %llu orphan %s"
            [arg_d (Z.of_nat size);
             arg_s (if bool_decide (size = 1) then "service" else "services")] st in
      let '(rest, terminated) := terminate_back size (m_services st1) [] in
      (terminated, set_services rest st1)
  end.

(** [locator_t::detach]: the actor it returns and the locator it leaves.
    A name that is not attached fails the assertion in a checked build;
    under [NDEBUG] the end iterator is dereferenced.  With a configured pool
    the port of [endpoints.front()] is pushed back, which is undefined for
    an actor without endpoints. *)
Definition detach (build : build_t) (name : string)
    (st : locator_t descriptor pool)
    : outcome (actor_t descriptor * locator_t descriptor pool) :=
  match list_find (λ service, name = service.1) (m_services st) with
  | None =>
      match build with
      | checked => Aborted
      | NDEBUG => Undefined
      end
  | Some (i, found) =>
      let service := found.2 in
      match location service, network_ports (m_context st) with
      | [], Some _ => Undefined
      | _, ports =>
          let st1 :=
            match ports with
            | Some _ => set_ports (pool_push (front_port service) (m_ports st)) st
            | None => st
            end in
          let st2 :=
            log log_info "service '%s' withdrawn from port %d"
                [arg_s name; arg_d (front_port service)] st1 in
          let st3 := set_services (delete i (m_services st2)) st2 in
          let st4 := set_router (remove_local name (m_router st3)) st3 in
          Returned
            (service,
             match m_synchronizer st4 with
             | Some s =>
                 set_synchronizer (Some (synchronizer_update (dump st4) s)) st4
             | None => st4
             end)
      end
  end.

(** [locator_t::connect], on what the locator holds.  [federated] is
    [m_context.config.network.gateway] and [group] the configured multicast
    group.  The collaborators answer during the call: [from_string] parses
    the address of the group, [sink] is the construction of the sink socket,
    [bound] and [joined] are [::bind] and
    [::setsockopt(MCAST_JOIN_GROUP)] with the [errno] of a failure,
    [gateway] is what [m_context.get<api::gateway_t>] builds, [announce] is
    the construction of the announce socket and [slot] the synchronizer
    that [std::make_shared<synchronize_slot_t>] builds.  The sink and its
    watcher are where the announce events come from; [m_announce] keeps
    recording the buffers written, whichever socket takes them. *)
Definition connect (federated : bool) (group : string)
    (from_string : string → exception + string)
    (sink : option exception) (bound joined : option Z)
    (gateway : exception + gateway_t descriptor)
    (announce : option exception) (slot : synchronize_slot_t descriptor)
    (st : locator_t descriptor pool) : outcome (locator_t descriptor pool) :=
  match from_string group with
  | inl e => Thrown e st
  | inr address =>
      let listening :=
        if federated then
          match sink, bound with
          | Some e, _ => Thrown e st
          | None, Some errno =>
              Thrown (system_error errno "unable to bind an announce socket") st
          | None, None =>
              let st1 :=
                log log_info "joining multicast group '%s' on '%s'"
                    [arg_s address; arg_endpoint ("0.0.0.0", 10054%Z)] st in
              match joined, gateway with
              | Some errno, _ =>
                  Thrown (system_error errno "unable to join a multicast group") st1
              | None, inl e => Thrown e st1
              | None, inr g => Returned (set_gateway (Some g) st1)
              end
          end
        else Returned st in
      match listening with
      | Returned st2 =>
          let st3 :=
            log log_info "announcing the node on '%s'"
                [arg_endpoint (address, 10054%Z)] st2 in
          match announce with
          | Some e => Thrown e st3
          | None =>
              Returned (set_synchronizer (Some slot) (start_announce_timer st3))
          end
      | failed => failed
      end
  end.

(** [locator_t::disconnect], on what the locator holds.  [federated] is
    [m_context.config.network.gateway].  The synchronizer is shut down
    through its pointer, which must not be null. *)
Definition disconnect (federated : bool) (st : locator_t descriptor pool)
    : outcome (locator_t descriptor pool) :=
  match m_synchronizer st with
  | None => Undefined
  | Some _ =>
      let st1 := set_announce_timer None (set_synchronizer None st) in
      Returned (if federated then set_remotes ∅ (set_gateway None st1) else st1)
  end.

End lifecycle.

(** ** The reactor's view: events and runs *)

Section events.
Context {descriptor : Type} `{!EqDecision descriptor}.
Context {pool : Type} `{!PortPool pool}.

(** What can happen to a locator: a datagram on the announce sink, a tick of
    the announce timer, a message, a failure or a heartbeat timeout on a
    peer's channel, the reactor running its posted actions, and the calls
    [attach], [detach], [refresh], [connect] and [disconnect].  ([resolve],
    [dump] and [reports] are [const]; the synchronize slot, which serves
    the subscribers of the feed, is in synchronization.inl.)  Each event
    carries what the collaborators answer during it. *)
Inductive event : Type :=
  | announce_event (unpack : string → exception + key_type)
      (query : string → Z → exception + list endpoint)
      (connect : endpoint → option exception)
      (size : Z) (ec : option (Z * string)) (buffers : string)
  | announce_timer_event (pack : key_type → string)
      (write : string → Z * option (Z * string))
  | message_event
      (unpack : string → exception + synchronize_result_type descriptor)
      (key : key_type) (message : message_t)
  | failure_event (key : key_type) (ec : option (Z * string))
  | timeout_event (key : key_type)
  | posted_event
  | attach_event (build : build_t) (from_string : string → exception + string)
      (name : string) (service : actor_t descriptor)
  | refresh_event (to_map : string → exception + gmap string Z) (name : string)
  | detach_event (build : build_t) (name : string)
  | connect_event (federated : bool) (group : string)
      (from_string : string → exception + string)
      (sink : option exception) (bound joined : option Z)
      (gateway : exception + gateway_t descriptor)
      (announce : option exception) (slot : synchronize_slot_t descriptor)
  | disconnect_event (federated : bool).

Definition dispatch (ev : event) (st : locator_t descriptor pool)
    : outcome (locator_t descriptor pool) :=
  match ev with
  | announce_event unpack query connect size ec buffers =>
      on_announce_event unpack query connect size ec buffers st
  | announce_timer_event pack write => Returned (on_announce_timer pack write st)
  | message_event unpack key message => on_message unpack key message st
  | failure_event key ec => on_failure key ec st
  | timeout_event key => on_timeout key st
  | posted_event => Returned (run_posted st)
  | attach_event build from_string name service =>
      attach build from_string name service st
  | refresh_event to_map name => refresh to_map name st
  | detach_event build name =>
      match detach build name st with
      | Returned (_, st') => Returned st'
      | Thrown e (_, st') => Thrown e st'
      | Aborted => Aborted
      | Undefined => Undefined
      end
  | connect_event federated group from_string sink bound joined gateway
      announce slot =>
      connect federated group from_string sink bound joined gateway announce
        slot st
  | disconnect_event federated => disconnect federated st
  end.

(** The callbacks of a peer are bound to the channel and the timer its
    entry owns: they run only while the entry exists.  A channel delivers
    no message after its error or choke frame, that is, while the erasure
    of its entry is pending. *)
Definition deliverable (ev : event) (st : locator_t descriptor pool) : Prop :=
  match ev with
  | message_event _ key _ =>
      key ∈ dom (m_remotes st) ∧ key ∉ erase_key <$> m_reactor st
  | failure_event key _ | timeout_event key => key ∈ dom (m_remotes st)
  | _ => True
  end.

(** A locator as its constructor leaves it: no peer, nothing posted, an
    empty remote catalog. *)
Definition initial (st : locator_t descriptor pool) : Prop :=
  m_remotes st = ∅ ∧ m_reactor st = [] ∧ router_inverted (m_router st) = ∅.

(** The states a locator goes through by events that satisfy [allowed].
    An exception that leaves a callback leaves the state it was thrown
    in. *)
Inductive reachable_by (allowed : event → Prop)
    : locator_t descriptor pool → Prop :=
  | reachable_initial st : initial st → reachable_by allowed st
  | reachable_returned st ev st' :
      reachable_by allowed st → allowed ev → deliverable ev st →
      dispatch ev st = Returned st' → reachable_by allowed st'
  | reachable_thrown st ev e st' :
      reachable_by allowed st → allowed ev → deliverable ev st →
      dispatch ev st = Thrown e st' → reachable_by allowed st'.

(** The states a locator goes through, whatever the events. *)
Definition reachable : locator_t descriptor pool → Prop :=
  reachable_by (λ _, True).

(** Every event but the [disconnect] of a federated node, which clears the
    peer registry. *)
Definition keeps_peers (ev : event) : Prop :=
  match ev with
  | disconnect_event true => False
  | _ => True
  end.

(** The state an event leaves, for the runs of the samples. *)
Definition after (ev : event) (st : locator_t descriptor pool)
    : locator_t descriptor pool :=
  match dispatch ev st with
  | Returned st' | Thrown _ st' => st'
  | _ => st
  end.

End events.
Arguments event : clear implicits.

(** ** Predicates on states *)

Section predicates.
Context {descriptor : Type} `{!EqDecision descriptor}.
Context {pool : Type} `{!PortPool pool}.
Implicit Types (st : locator_t descriptor pool).

(** A pool is configured and has run dry. *)
Definition ports_exhausted st : bool :=
  match network_ports (m_context st) with
  | Some _ => pool_empty (m_ports st)
  | None => false
  end.

(** The socket did not take the whole buffer. *)
Definition write_failed (buffer : string)
    (write : string → Z * option (Z * string)) : bool :=
  bool_decide ((write buffer).1 ≠ Z.of_nat (String.length buffer)).

(** Everything a locator holds but its log and the record of the datagrams
    it wrote. *)
Definition same_state st st' : Prop :=
  m_context st' = m_context st ∧ m_reactor st' = m_reactor st ∧
  m_router st' = m_router st ∧ m_services st' = m_services st ∧
  m_ports st' = m_ports st ∧ m_gateway st' = m_gateway st ∧
  m_remotes st' = m_remotes st ∧ m_synchronizer st' = m_synchronizer st ∧
  m_announce_timer st' = m_announce_timer st.

(** The uuids of the inverted index. *)
Definition catalog_uuids st : gset string := dom (router_inverted (m_router st)).

(** Every uuid of the remote catalog is the uuid of a peer entry whose
    erasure is not pending. *)
Definition covered st : Prop :=
  ∀ uuid, uuid ∈ catalog_uuids st →
    ∃ key, key ∈ dom (m_remotes st) ∧ (key ∉ erase_key <$> m_reactor st) ∧
           key_uuid key = uuid.

(** A step that touches neither the remote catalog nor the reactor's queue
    and loses no peer entry. *)
Definition peers_grow st st' : Prop :=
  catalog_uuids st' = catalog_uuids st ∧ m_reactor st' = m_reactor st ∧
  dom (m_remotes st) ⊆ dom (m_remotes st').

End predicates.

(** ** More predicates on states *)

Section peer_predicates.
Context {descriptor : Type} `{!EqDecision descriptor}.
Context {pool : Type} `{!PortPool pool}.
Implicit Types (st : locator_t descriptor pool).

(** Everything a locator holds but its log and its peer entries. *)
Definition keeps_all_but_peers st st' : Prop :=
  m_context st' = m_context st ∧ m_reactor st' = m_reactor st ∧
  m_router st' = m_router st ∧ m_services st' = m_services st ∧
  m_ports st' = m_ports st ∧ m_gateway st' = m_gateway st ∧
  m_synchronizer st' = m_synchronizer st ∧ m_announce st' = m_announce st ∧
  m_announce_timer st' = m_announce_timer st.

(** A peer entry as [on_announce_event] leaves it: the heartbeat armed for
    60 seconds, one synchronize request written on the channel. *)
Definition armed (remote : remote_t) : Prop :=
  timeout remote = Some 60%Z ∧ (channel remote).2 = ["synchronize"].

(** The endpoint threw a [std::system_error] when connected to. *)
Definition refuses (connect : endpoint → option exception) (e : endpoint) : Prop :=
  ∃ code message, connect e = Some (system_error code message).

End peer_predicates.

(** ** Sample values

    Descriptors are opaque to the locator; the samples use strings for them
    and the last-in first-out pool for the ports. *)

Definition sample_context : context_t :=
  {| network_uuid := "node-b";
     network_hostname := "b.example";
     network_locator := 10053;
     network_endpoint := "127.0.0.1";
     network_ports := Some (5000%Z, 5002%Z) |}.

(** The same node with no port pool configured. *)
Definition sample_context_no_pool : context_t :=
  {| network_uuid := "node-b";
     network_hostname := "b.example";
     network_locator := 10053;
     network_endpoint := "127.0.0.1";
     network_ports := None |}.

(** An actor that binds whatever endpoints it is given. *)
Definition sample_actor (info : string) : actor_t string :=
  {| metadata := info; location := []; actor_bind := λ endpoints, inr endpoints |}.

(** An actor whose bind fails: the address is in use. *)
Definition busy_actor (info : string) : actor_t string :=
  {| metadata := info;
     location := [];
     actor_bind := λ _, inl (system_error 98 "address already in use") |}.

(** A gateway that knows one remote service. *)
Definition sample_gateway : gateway_t string :=
  {| gateway_answer := λ _ name,
       if bool_decide (name = "cache") then inr "cache@node-a"
       else inl (error_t "gateway: no such service");
     gateway_calls := [] |}.

(** A freshly constructed locator: nothing attached, two free ports. *)
Definition sample_locator : locator_t string (list Z) :=
  {| m_context := sample_context;
     m_log := [];
     m_reactor := [];
     m_router := router_empty;
     m_services := [];
     m_ports := [5000%Z; 5001%Z];
     m_gateway := None;
     m_remotes := ∅;
     m_synchronizer := None;
     m_announce := [];
     m_announce_timer := None |}.

(** The locator once it is connected to a gateway. *)
Definition sample_federated : locator_t string (list Z) :=
  set_synchronizer (Some {| m_upstreams := [[]] |})
    (set_gateway (Some sample_gateway) (start_announce_timer sample_locator)).

(** The sample locator with service "storage" in its catalog. *)
Definition sample_with_storage : locator_t string (list Z) :=
  set_router (add_local "storage" router_empty)
    (set_services [("storage", sample_actor "storage@node-b")]
       (set_ports [5001%Z] sample_locator)).

(** A locator whose pool is configured and has run dry. *)
Definition sample_dry : locator_t string (list Z) :=
  set_ports [] sample_with_storage.

(** A locator with no pool configured. *)
Definition sample_no_pool : locator_t string (list Z) :=
  {| m_context := sample_context_no_pool;
     m_log := [];
     m_reactor := [];
     m_router := add_local "storage" router_empty;
     m_services := [("storage", sample_actor "storage@node-b")];
     m_ports := [];
     m_gateway := None;
     m_remotes := ∅;
     m_synchronizer := None;
     m_announce := [];
     m_announce_timer := None |}.

(** An address parser that accepts every string. *)
Definition sample_from_string (address : string) : exception + string :=
  inr address.

(** The storage holds one group, "storages", with the one service
    "storage" of weight 1; reading any other group fails. *)
Definition sample_storage (name : string) : exception + gmap string Z :=
  if bool_decide (name = "storages") then inr {["storage" := 1%Z]}
  else inl (storage_error_t "no such file").

(** A storage whose backend is broken in another way. *)
Definition broken_storage (name : string) : exception + gmap string Z :=
  inl (foreign_exception "bad allocation").

(** Node "node-a" announces itself under two hostnames. *)
Definition peer_a1 : key_type := ("node-a", "a1.example", 10053%Z).
Definition peer_a2 : key_type := ("node-a", "a2.example", 10053%Z).

Definition sample_unpack_key (buffers : string) : exception + key_type :=
  if bool_decide (buffers = "a1") then inr peer_a1
  else if bool_decide (buffers = "a2") then inr peer_a2
  else inl (unpack_error "insufficient bytes").

Definition sample_query (hostname : string) (port : Z) : exception + list endpoint :=
  inr [(hostname, port)].

Definition sample_connect (e : endpoint) : option exception := None.

Definition announce_from (buffers : string) : event string :=
  announce_event sample_unpack_key sample_query sample_connect 2 None buffers.

(** Two snapshots of "node-a": service "q" with descriptor "d1", then with
    descriptor "d2". *)
Definition sample_unpack (payload : string) : exception + gmap string string :=
  if bool_decide (payload = "d1") then inr {["q" := "d1"]}
  else if bool_decide (payload = "d2") then inr {["q" := "d2"]}
  else inl (unpack_error "insufficient bytes").

Definition chunk_from (key : key_type) (payload : string) : event string :=
  message_event sample_unpack key (rpc_chunk payload).

(** The federated locator after the first announce of "node-a", after its
    second announce under the other hostname, and after its first
    snapshot. *)
Definition sample_discovered : locator_t string (list Z) :=
  after (announce_from "a1") sample_federated.

Definition sample_two_entries : locator_t string (list Z) :=
  after (announce_from "a2") sample_discovered.

Definition sample_synced : locator_t string (list Z) :=
  after (chunk_from peer_a1 "d1") sample_discovered.

(** The gateway of [sample_synced]: it has consumed "q". *)
Definition sample_synced_gateway : gateway_t string :=
  gateway_record [consume "node-a" "q" "d1"] sample_gateway.

(** A socket that takes every buffer whole, and one that fails. *)
Definition write_all (buffer : string) : Z * option (Z * string) :=
  (Z.of_nat (String.length buffer), None).

Definition write_none (buffer : string) : Z * option (Z * string) :=
  ((-1)%Z, Some (101%Z, "network is unreachable")).

(** A packer for the samples: the fields joined by bars. *)
Definition sample_pack (key : key_type) : string :=
  String.append (key_uuid key) (String.append "|" (key_hostname key)).

(** The locator with "storage" attached, after "cache" is attached too:
    the actor of "cache" is bound to the port taken from the pool. *)
Definition sample_attached : locator_t string (list Z) :=
  after (attach_event checked sample_from_string "cache"
           (sample_actor "cache@node-b"))
    sample_with_storage.

(** The locator with "storage" attached, after an [NDEBUG] build attaches
    "storage" a second time. *)
Definition sample_reattached : locator_t string (list Z) :=
  after (attach_event NDEBUG sample_from_string "storage"
           (sample_actor "storage@2"))
    sample_with_storage.

(** A network on which the first hostname of "node-a" refuses connections;
    the endpoints a resolver may give for the node. *)
Definition sample_refusing (e : endpoint) : option exception :=
  if bool_decide (e.1 = "a1.example")
  then Some (system_error 111 "connection refused")
  else None.

Definition sample_endpoints : list endpoint :=
  [("a1.example", 10053%Z); ("a2.example", 10053%Z); ("a3.example", 10053%Z)].

(** * Properties *)

Section facade_properties.
Context {descriptor : Type} `{!EqDecision descriptor}.
Context {pool : Type} `{!PortPool pool}.
Implicit Types (st : locator_t descriptor pool) (name : string).

(** ** The local catalog *)

Lemma find_service_Some name (services : list (string * actor_t descriptor)) found :
  find_service name services = Some found →
  found.1 = name ∧ found ∈ services.
Proof.
  unfold find_service. intros Hfind.
  destruct (list_find _ services) as [[i x]|] eqn:Hlist; simplify_eq/=.
  apply list_find_Some in Hlist as (Hlookup & Hname & _).
  split; [done | by eapply list_elem_of_lookup_2].
Qed.

Lemma find_service_None name (services : list (string * actor_t descriptor)) :
  find_service name services = None ↔ name ∉ services.*1.
Proof.
  unfold find_service. split.
  - intros Hfind.
    destruct (list_find _ services) as [[i x]|] eqn:Hlist; simplify_eq/=.
    rewrite list_find_None, Forall_forall in Hlist.
    intros ([n a] & -> & Hin)%list_elem_of_fmap. by apply (Hlist _ Hin).
  - intros Hnot.
    destruct (list_find _ services) as [[i x]|] eqn:Hlist; [|done].
    apply list_find_Some in Hlist as (Hlookup & -> & _).
    destruct Hnot. apply list_elem_of_fmap. exists x. split; [done|].
    by eapply list_elem_of_lookup_2.
Qed.

Lemma find_service_is_Some name (services : list (string * actor_t descriptor)) :
  is_Some (find_service name services) ↔ name ∈ services.*1.
Proof.
  rewrite <- not_eq_None_Some, find_service_None.
  split; [apply dec_stable | auto].
Qed.

(** ** resolve *)

(** C1.  [resolve] selects a target with the router.  When the target names
    a locally attached service the answer is that service's descriptor,
    whatever the gateway and the remote catalog hold.  Otherwise, with a
    gateway, the answer is the gateway's for the target.  The facade's own
    error, "the specified service is not available", is raised exactly
    when there is no gateway and no local match; any other failure is the
    gateway's. *)
Theorem resolve_prefers_local_then_gateway (r : Z) name st :
  let t := select_service r name (m_router st) in
  (t ∈ (m_services st).*1 →
     ∃ local, (t, local) ∈ m_services st ∧
              find_service t (m_services st) = Some (t, local) ∧
              resolve r name st = inr (metadata local)) ∧
  (∀ g, t ∉ (m_services st).*1 → m_gateway st = Some g →
     resolve r name st = gateway_resolve g t) ∧
  (t ∉ (m_services st).*1 → m_gateway st = None →
     resolve r name st = inl (error_t "the specified service is not available")) ∧
  (resolve_route t st = route_unavailable ↔
     m_gateway st = None ∧ t ∉ (m_services st).*1) ∧
  (∀ e, resolve r name st = inl e →
     (t ∉ (m_services st).*1) ∧
     ((m_gateway st = None ∧ e = error_t "the specified service is not available")
      ∨ (∃ g, m_gateway st = Some g ∧ gateway_resolve g t = inl e))).
Proof.
  intros t. unfold resolve, resolve_route. fold t.
  destruct (find_service t (m_services st)) as [[n local]|] eqn:Hfind.
  - pose proof (find_service_Some _ _ _ Hfind) as [Hname Hin]. simpl in Hname. subst n.
    assert (t ∈ (m_services st).*1) as Hlocal.
    { apply find_service_is_Some. rewrite Hfind. by eexists. }
    repeat split; try done.
    + intros _. by exists local.
    + intros [_ Hno]. by destruct Hno.
  - apply find_service_None in Hfind.
    destruct (m_gateway st) as [g|] eqn:Hgw.
    + repeat split; try done.
      * by intros g' _ [= <-].
      * by intros [? _].
      * right. by exists g.
    + repeat split; try done.
      left. split; [done | congruence].
Qed.

(** ** attach *)

Lemma allocate_port_exhausted st :
  ports_exhausted st = true →
  allocate_port st = inl (error_t "no ports left for allocation").
Proof.
  unfold ports_exhausted, allocate_port.
  destruct (network_ports (m_context st)); [|done]. by intros ->.
Qed.

Lemma allocate_port_available st :
  ports_exhausted st = false →
  ∃ port st1, allocate_port st = inr (port, st1) ∧
    m_context st1 = m_context st ∧ m_services st1 = m_services st ∧
    m_router st1 = m_router st ∧ m_synchronizer st1 = m_synchronizer st ∧
    m_log st1 = m_log st.
Proof.
  unfold ports_exhausted, allocate_port.
  destruct (network_ports (m_context st)).
  - intros ->. by eexists _, _.
  - intros _. by eexists _, _.
Qed.

(** What [attach] leaves untouched when it throws, and what it has done when
    it returns. *)
Lemma attach_cases build from_string name (service : actor_t descriptor) st :
  (build = checked → name ∉ (m_services st).*1) →
  (ports_exhausted st = true ∧
     attach build from_string name service st
       = Thrown (error_t "no ports left for allocation") st)
  ∨ (ports_exhausted st = false ∧
     ∃ port st1, allocate_port st = inr (port, st1) ∧
       match from_string (network_endpoint (m_context st)) with
       | inl e => attach build from_string name service st = Thrown e st1
       | inr address =>
           match actor_run service [(address, port)] with
           | inl e => attach build from_string name service st = Thrown e st1
           | inr running =>
               ∃ st', attach build from_string name service st = Returned st' ∧
                 m_services st' = m_services st ++ [(name, running)] ∧
                 m_router st' = add_local name (m_router st) ∧
                 m_synchronizer st'
                   = synchronizer_update (dump st') <$> m_synchronizer st ∧
                 m_ports st' = m_ports st1
           end
       end).
Proof.
  intros Hfresh.
  assert (attach build from_string name service st =
          match allocate_port st with
          | inl e => Thrown e st
          | inr (port, st1) =>
              match from_string (network_endpoint (m_context st1)) with
              | inl e => Thrown e st1
              | inr address =>
                  match actor_run service [(address, port)] with
                  | inl e => Thrown e st1
                  | inr running =>
                      let st2 :=
                        log log_info "service '%s' published on port %d"
                            [arg_s name; arg_d (front_port running)] st1 in
                      let st3 := set_services (m_services st2 ++ [(name, running)]) st2 in
                      let st4 := set_router (add_local name (m_router st3)) st3 in
                      Returned
                        match m_synchronizer st4 with
                        | Some s =>
                            set_synchronizer
                              (Some (synchronizer_update (dump st4) s)) st4
                        | None => st4
                        end
                  end
              end
          end) as ->.
  { unfold attach. destruct build; [|done].
    destruct (find_service name (m_services st)) eqn:Hfind; [|done].
    destruct (Hfresh eq_refl). apply find_service_is_Some. by rewrite Hfind. }
  destruct (ports_exhausted st) eqn:Hex.
  - left. split; [done|]. by rewrite allocate_port_exhausted.
  - right. split; [done|].
    destruct (allocate_port_available st Hex)
      as (port & st1 & -> & Hctx & Hsvc & Hrouter & Hsync & _).
    exists port, st1. split; [done|]. rewrite Hctx.
    destruct (from_string _) as [e|address]; [done|].
    destruct (actor_run service _) as [e|running]; [done|].
    simpl. rewrite Hsync.
    destruct (m_synchronizer st) as [s|]; eexists; (split; [done|]); simpl;
      rewrite ?Hsvc, ?Hrouter; done.
Qed.

Lemma actor_run_inl (service : actor_t descriptor) endpoints e :
  actor_run service endpoints = inl e ↔ actor_bind service endpoints = inl e.
Proof.
  unfold actor_run. destruct (actor_bind service endpoints); naive_solver.
Qed.

Lemma actor_run_inr (service running : actor_t descriptor) endpoints :
  actor_run service endpoints = inr running →
  metadata running = metadata service ∧
  actor_bind service endpoints = inr (location running).
Proof.
  unfold actor_run. destruct (actor_bind service endpoints); naive_solver.
Qed.

(** C5, as the code has it.  A name that is already attached is a violated
    assertion ([BOOST_VERIFY]), not an error.  For a name that is not yet
    attached: with a configured pool that is empty, [attach] throws "no
    ports left for allocation" and changes nothing; every other throw
    is the address parser's or the actor's own, and leaves the catalog, the
    router and the feed as they were; a normal return has appended the
    bound actor to the catalog, called [add_local] on the router and, when
    the feed is connected, sent it the snapshot of the new catalog. *)
Theorem attach_fresh_name build from_string name (service : actor_t descriptor) st :
  name ∉ (m_services st).*1 →
  (ports_exhausted st = true →
     attach build from_string name service st
       = Thrown (error_t "no ports left for allocation") st) ∧
  (∀ e st', attach build from_string name service st = Thrown e st' →
     m_services st' = m_services st ∧ m_router st' = m_router st ∧
     m_synchronizer st' = m_synchronizer st ∧
     ((ports_exhausted st = true ∧ st' = st ∧
       e = error_t "no ports left for allocation")
      ∨ (ports_exhausted st = false ∧
         (from_string (network_endpoint (m_context st)) = inl e
          ∨ (∃ endpoints, actor_bind service endpoints = inl e))))) ∧
  (∀ st', attach build from_string name service st = Returned st' →
     ports_exhausted st = false ∧
     ∃ running, metadata running = metadata service ∧
       m_services st' = m_services st ++ [(name, running)] ∧
       m_router st' = add_local name (m_router st) ∧
       m_synchronizer st' = synchronizer_update (dump st') <$> m_synchronizer st) ∧
  attach build from_string name service st ≠ Aborted ∧
  attach build from_string name service st ≠ Undefined.
Proof.
  intros Hfresh.
  destruct (attach_cases build from_string name service st (λ _, Hfresh))
    as [[Hex Hthrow] | (Hex & port & st1 & Halloc & Hcase)].
  - rewrite Hthrow. repeat split; try done; try congruence.
    left. naive_solver.
  - destruct (allocate_port_available st Hex)
      as (port' & st1' & Halloc' & _ & Hsvc & Hrouter & Hsync & _).
    rewrite Halloc in Halloc'. simplify_eq.
    destruct (from_string _) as [e0|address] eqn:Hparse.
    { rewrite Hcase. repeat split; try done; try congruence; intros;
        simplify_eq; try done. right. naive_solver. }
    destruct (actor_run service _) as [e0|running] eqn:Hrun.
    { rewrite Hcase. apply actor_run_inl in Hrun.
      repeat split; try done; try congruence; intros; simplify_eq; try done.
      right. split; [done|]. right. by eexists. }
    destruct Hcase as (st' & Hret & Hsvc' & Hrouter' & Hsync' & _).
    rewrite Hret. apply actor_run_inr in Hrun as [Hmeta _].
    repeat split; try done; try congruence.
    simplify_eq. by exists running.
Qed.

(** C10.  With a configured pool that is not empty, when the actor's bind
    throws, [attach] throws the same exception after the port was popped:
    the pool stays one port short and the catalog and the router are as
    before the call. *)
Theorem attach_bind_failure_keeps_port_removed build from_string name
    (service : actor_t descriptor) st address e :
  (build = checked → name ∉ (m_services st).*1) →
  is_Some (network_ports (m_context st)) →
  pool_empty (m_ports st) = false →
  from_string (network_endpoint (m_context st)) = inr address →
  actor_bind service [(address, pool_top (m_ports st))] = inl e →
  ∃ st', attach build from_string name service st = Thrown e st' ∧
         m_ports st' = pool_pop (m_ports st) ∧
         m_services st' = m_services st ∧
         m_router st' = m_router st ∧
         m_synchronizer st' = m_synchronizer st.
Proof.
  intros Hfresh [range Hrange] Hpool Hparse Hbind.
  assert (ports_exhausted st = false) as Hex.
  { unfold ports_exhausted. by rewrite Hrange. }
  destruct (attach_cases build from_string name service st Hfresh)
    as [[Hex' _] | (_ & port & st1 & Halloc & Hcase)]; [congruence|].
  unfold allocate_port in Halloc. rewrite Hrange, Hpool in Halloc.
  simplify_eq. rewrite Hparse in Hcase.
  apply actor_run_inl in Hbind. rewrite Hbind in Hcase.
  by eexists.
Qed.

(** ** refresh *)

(** C6.  [refresh] reads the group from the storage.  A group that was read
    replaces the router's group of that name through [add_group]; a
    [storage_error_t] is logged, the group is removed through
    [remove_group] and the call returns; any other exception leaves
    [refresh] as it is, with the locator unchanged. *)
Theorem refresh_reads_group_or_assumes_deletion
    (to_map : string → exception + gmap string Z) name st :
  (∀ group, to_map name = inr group →
     refresh to_map name st
       = Returned (set_router (add_group name group (m_router st)) st)) ∧
  (∀ what, to_map name = inl (storage_error_t what) →
     ∃ st', refresh to_map name st = Returned st' ∧
            m_router st' = remove_group name (m_router st) ∧
            m_services st' = m_services st ∧
            m_remotes st' = m_remotes st ∧
            m_log st' = m_log st ++
              [(log_info, "unable to read group '%s' from storage - %s",
                [arg_s name; arg_s what])]) ∧
  (∀ e, to_map name = inl e → (∀ what, e ≠ storage_error_t what) →
     refresh to_map name st = Thrown e st).
Proof.
  unfold refresh. repeat split.
  - by intros group ->.
  - intros what ->. by eexists.
  - intros e -> Hother. destruct e; try done. by destruct (Hother what).
Qed.

End facade_properties.

(** ** The router's remote catalog *)

Section router_properties.
Context {descriptor : Type} `{!EqDecision descriptor}.
Implicit Types (r : router_t descriptor) (uuid name : string).

Lemma router_add_inverted_dom uuid name info r :
  dom (router_inverted (router_add uuid name info r))
    = {[uuid]} ∪ dom (router_inverted r).
Proof. simpl. by rewrite dom_insert_L. Qed.

Lemma router_remove_inverted_dom uuid name r :
  dom (router_inverted (router_remove uuid name r)) = dom (router_inverted r).
Proof. simpl. by rewrite dom_alter_L. Qed.

Lemma foldl_router_remove_dom uuid (removed : services_vector_t descriptor) r :
  dom (router_inverted (foldl (λ acc p, router_remove uuid p.1 acc) r removed))
    = dom (router_inverted r).
Proof.
  revert r. induction removed as [|p removed IH]; intros r; [done|].
  simpl foldl. by rewrite IH, router_remove_inverted_dom.
Qed.

Lemma foldl_router_add_dom uuid (added : services_vector_t descriptor) r :
  dom (router_inverted (foldl (λ acc p, router_add uuid p.1 p.2 acc) r added))
    ⊆ {[uuid]} ∪ dom (router_inverted r).
Proof.
  revert r. induction added as [|p added IH]; intros r; [set_solver|].
  simpl foldl. etrans; [apply IH|]. rewrite router_add_inverted_dom. set_solver.
Qed.

(** A snapshot of [uuid] adds no other node to the inverted index. *)
Lemma update_remote_inverted_dom uuid dump r :
  dom (router_inverted (update_remote uuid dump r).2)
    ⊆ {[uuid]} ∪ dom (router_inverted r).
Proof.
  unfold update_remote. simpl. etrans; [apply foldl_router_add_dom|].
  by rewrite foldl_router_remove_dom.
Qed.

(** Removing a node leaves it in neither index. *)
Lemma remove_remote_inverted uuid r :
  router_inverted (remove_remote uuid r).2 = delete uuid (router_inverted r).
Proof. done. Qed.

Lemma remove_remote_returns uuid r :
  (remove_remote uuid r).1 = default ∅ (router_inverted r !! uuid).
Proof. done. Qed.

Lemma remove_remote_providers uuid name r :
  uuid ∉ router_providers name (remove_remote uuid r).2.
Proof.
  unfold router_providers. simpl. rewrite lookup_omap.
  destruct (router_services r !! name) as [uuids|]; simpl; [|set_solver].
  case_bool_decide; simpl; set_solver.
Qed.

(** Other nodes keep their services when [uuid] is removed. *)
Lemma remove_remote_other uuid other r :
  other ≠ uuid →
  router_inverted (remove_remote uuid r).2 !! other = router_inverted r !! other.
Proof. intros. simpl. by rewrite lookup_delete_ne. Qed.

(** A changed descriptor is in both halves of the difference. *)
Lemma diff_changed_descriptor (current dump : gmap string descriptor) name d1 d2 :
  current !! name = Some d1 → dump !! name = Some d2 → d1 ≠ d2 →
  (name, d1) ∈ diff_removed current dump ∧ (name, d2) ∈ diff_added current dump.
Proof.
  intros Hcur Hdump Hne. unfold diff_removed, diff_added.
  split; apply list_elem_of_filter; simpl.
  - split; [congruence | by apply elem_of_map_to_list].
  - split; [congruence | by apply elem_of_map_to_list].
Qed.

Lemma diff_removed_spec (current dump : gmap string descriptor) name d :
  (name, d) ∈ diff_removed current dump ↔
  current !! name = Some d ∧ dump !! name ≠ Some d.
Proof.
  unfold diff_removed. rewrite list_elem_of_filter, elem_of_map_to_list. naive_solver.
Qed.

Lemma diff_added_spec (current dump : gmap string descriptor) name d :
  (name, d) ∈ diff_added current dump ↔
  dump !! name = Some d ∧ current !! name ≠ Some d.
Proof.
  unfold diff_added. rewrite list_elem_of_filter, elem_of_map_to_list. naive_solver.
Qed.

End router_properties.

(** ** Peers: messages, failures, timeouts *)

Section peer_properties.
Context {descriptor : Type} `{!EqDecision descriptor}.
Context {pool : Type} `{!PortPool pool}.
Implicit Types (st : locator_t descriptor pool) (key : key_type).
Implicit Types (g : gateway_t descriptor).

Lemma gateway_record_nil g : gateway_record [] g = g.
Proof. destruct g. unfold gateway_record. simpl. by rewrite app_nil_r. Qed.

Lemma set_gateway_id st : set_gateway (m_gateway st) st = st.
Proof. by destruct st. Qed.

(** With a gateway the calls are recorded on it, in order. *)
Lemma gateway_apply_Some calls st g :
  m_gateway st = Some g →
  gateway_apply calls st
    = Returned (set_gateway (Some (gateway_record calls g)) st).
Proof.
  intros Hg. unfold gateway_apply. rewrite Hg.
  destruct calls; [|done].
  by rewrite gateway_record_nil, <- Hg, set_gateway_id.
Qed.

(** Whatever the gateway, recording calls touches neither the peers nor
    the reactor's queue. *)
Lemma gateway_apply_frame calls st st' :
  gateway_apply calls st = Returned st' →
  m_remotes st' = m_remotes st ∧ m_reactor st' = m_reactor st ∧
  m_router st' = m_router st ∧ m_services st' = m_services st.
Proof.
  unfold gateway_apply.
  destruct calls, (m_gateway st); intros; by simplify_eq.
Qed.

Lemma gateway_apply_not_thrown calls st e st' :
  gateway_apply calls st ≠ Thrown e st'.
Proof. unfold gateway_apply. by destruct calls, (m_gateway st). Qed.

Lemma drop_remote_Some uuid st g :
  m_gateway st = Some g →
  drop_remote uuid st
    = Returned
        (set_gateway
           (Some (gateway_record
                    (cleanup uuid <$>
                       (map_to_list (remove_remote uuid (m_router st)).1).*1) g))
           (set_router (remove_remote uuid (m_router st)).2 st)).
Proof.
  intros Hg. unfold drop_remote.
  destruct (remove_remote uuid (m_router st)) as [removed router].
  by apply gateway_apply_Some.
Qed.

Lemma drop_remote_frame uuid st st' :
  drop_remote uuid st = Returned st' →
  m_remotes st' = m_remotes st ∧ m_reactor st' = m_reactor st.
Proof.
  unfold drop_remote.
  destruct (remove_remote uuid (m_router st)) as [removed router].
  intros (-> & -> & _)%gateway_apply_frame. done.
Qed.

Lemma drop_remote_not_thrown uuid st e st' :
  drop_remote uuid st ≠ Thrown e st'.
Proof.
  unfold drop_remote.
  destruct (remove_remote uuid (m_router st)) as [removed router].
  apply gateway_apply_not_thrown.
Qed.

(** The posted erasures, once run, have removed their keys and no other. *)
Lemma foldl_delete_lookup (actions : list deferred_erase_action)
    (m : gmap key_type remote_t) key :
  foldl (λ acc action, delete (erase_key action) acc) m actions !! key
    = if bool_decide (key ∈ erase_key <$> actions) then None else m !! key.
Proof.
  revert m. induction actions as [|a actions IH]; intros m; simpl.
  - done.
  - rewrite IH. destruct (decide (key = erase_key a)) as [->|Hne].
    + rewrite lookup_delete_eq, (bool_decide_eq_true_2 (_ ∈ _ :: _)); [|set_solver].
      by case_bool_decide.
    + rewrite lookup_delete_ne by done.
      apply (f_equal (λ b : bool, if b then None else m !! key)).
      apply bool_decide_ext. set_solver.
Qed.

Lemma foldl_erase_remotes (actions : list deferred_erase_action) st :
  m_remotes (foldl (λ acc action, erase_remote (erase_key action) acc) st actions)
    = foldl (λ acc action, delete (erase_key action) acc) (m_remotes st) actions.
Proof.
  revert st. induction actions as [|a actions IH]; intros st; [done|].
  simpl. by rewrite IH.
Qed.

Lemma foldl_erase_frame (actions : list deferred_erase_action) st :
  let st' := foldl (λ acc action, erase_remote (erase_key action) acc) st actions in
  m_reactor st' = m_reactor st ∧ m_router st' = m_router st ∧
  m_gateway st' = m_gateway st ∧ m_services st' = m_services st.
Proof.
  revert st. induction actions as [|a actions IH]; intros st; [done|].
  simpl. by destruct (IH (erase_remote (erase_key a) st)) as (-> & -> & -> & ->).
Qed.

Lemma run_posted_lookup st key :
  m_remotes (run_posted st) !! key
    = if bool_decide (key ∈ erase_key <$> m_reactor st) then None
      else m_remotes st !! key.
Proof.
  unfold run_posted. by rewrite foldl_erase_remotes, foldl_delete_lookup.
Qed.

Lemma run_posted_frame st :
  m_reactor (run_posted st) = [] ∧ m_router (run_posted st) = m_router st ∧
  m_gateway (run_posted st) = m_gateway st ∧
  m_services (run_posted st) = m_services st.
Proof.
  unfold run_posted.
  by destruct (foldl_erase_frame (m_reactor st) (set_reactor [] st))
    as (-> & -> & -> & ->).
Qed.

Lemma posted_key_queued (queue : list deferred_erase_action) key :
  key ∈ erase_key <$> queue ++ [{| erase_key := key |}].
Proof. rewrite fmap_app, elem_of_app. right. simpl. apply list_elem_of_here. Qed.

Lemma names_of_map (m : gmap string descriptor) :
  NoDup (map_to_list m).*1 ∧
  ∀ name, name ∈ (map_to_list m).*1 ↔ is_Some (m !! name).
Proof.
  split; [apply NoDup_fst_map_to_list|].
  intros name. rewrite list_elem_of_fmap. split.
  - intros ([n d] & -> & Hin). apply elem_of_map_to_list in Hin. by exists d.
  - intros [d Hd]. exists (name, d). by rewrite elem_of_map_to_list.
Qed.

(** C2.  Each way a peer closes (an error frame, a choke frame, a channel
    failure, a heartbeat timeout) calls [remove_remote] for the peer's
    uuid, then [cleanup] on the gateway once for every service the removal
    dropped, and erases the peer's entry: at once in the failure and the
    timeout callbacks, through the action posted on the reactor in the
    message callback.  Afterwards the uuid is in neither index of the
    remote catalog. *)
Theorem peer_close_drops_remote_services
    (unpack : string → exception + synchronize_result_type descriptor)
    key (ec : option (Z * string)) st g :
  m_gateway st = Some g →
  let uuid := key_uuid key in
  let dropped := default ∅ (router_inverted (m_router st) !! uuid) in
  let closed st' :=
    m_router st' = (remove_remote uuid (m_router st)).2 ∧
    (∃ g', m_gateway st' = Some g' ∧
           gateway_calls g'
             = gateway_calls g ++ (cleanup uuid <$> (map_to_list dropped).*1)) ∧
    m_remotes (run_posted st') !! key = None ∧
    router_inverted (m_router st') !! uuid = None ∧
    (∀ name, uuid ∉ router_providers name (m_router st')) in
  (NoDup (map_to_list dropped).*1 ∧
   ∀ name, name ∈ (map_to_list dropped).*1 ↔ is_Some (dropped !! name)) ∧
  (∃ st', on_message unpack key rpc_error st = Returned st' ∧ closed st' ∧
          m_reactor st' = m_reactor st ++ [{| erase_key := key |}]) ∧
  (∃ st', on_message unpack key rpc_choke st = Returned st' ∧ closed st' ∧
          m_reactor st' = m_reactor st ++ [{| erase_key := key |}]) ∧
  (∃ st', on_failure key ec st = Returned st' ∧ closed st' ∧
          m_remotes st' = delete key (m_remotes st)) ∧
  (∃ st', on_timeout key st = Returned st' ∧ closed st' ∧
          m_remotes st' = delete key (m_remotes st)).
Proof.
  intros Hg uuid dropped closed.
  split; [apply names_of_map|].
  assert (∀ st0 : locator_t descriptor pool,
            m_router st0 = (remove_remote uuid (m_router st)).2 →
            router_inverted (m_router st0) !! uuid = None ∧
            (∀ name, uuid ∉ router_providers name (m_router st0))) as Hgone.
  { intros st0 ->. split; [apply lookup_delete_eq|].
    intros name. apply remove_remote_providers. }
  repeat split.
  - eexists. unfold on_message.
    rewrite (drop_remote_Some uuid _ g) by done.
    split; [done|]. split; [|done].
    split; [done|]. split; [by eexists|].
    split; [|by apply Hgone].
    rewrite run_posted_lookup. simpl.
    rewrite bool_decide_eq_true_2; [done | apply posted_key_queued].
  - eexists. unfold on_message.
    rewrite (drop_remote_Some uuid _ g) by done.
    split; [done|]. split; [|done].
    split; [done|]. split; [by eexists|].
    split; [|by apply Hgone].
    rewrite run_posted_lookup. simpl.
    rewrite bool_decide_eq_true_2; [done | apply posted_key_queued].
  - destruct ec as [[value message]|]; eexists; unfold on_failure;
      (rewrite (drop_remote_Some uuid _ g) by done);
      (split; [done|]); (split; [|done]);
      (split; [done|]); (split; [by eexists|]);
      (split; [|by apply Hgone]);
      rewrite run_posted_lookup; (case_bool_decide; [done|]);
      simpl; apply lookup_delete_eq.
  - eexists. unfold on_timeout.
    rewrite (drop_remote_Some uuid _ g) by done.
    split; [done|]. split; [|done].
    split; [done|]. split; [by eexists|].
    split; [|by apply Hgone].
    rewrite run_posted_lookup. case_bool_decide; [done|].
    simpl. apply lookup_delete_eq.
Qed.

(** C7.  A chunk is decoded into a snapshot, [update_remote] returns the
    difference, and the gateway receives every removal ([cleanup]) before
    any addition ([consume]).  A service whose descriptor changed from [d1]
    to [d2] is in both halves: its [cleanup] comes strictly before its
    [consume] with [d2]. *)
Theorem chunk_cleanups_precede_consumes
    (unpack : string → exception + synchronize_result_type descriptor)
    key payload snapshot st g :
  unpack payload = inr snapshot →
  m_gateway st = Some g →
  let uuid := key_uuid key in
  let current := default ∅ (router_inverted (m_router st) !! uuid) in
  ∃ st' g',
    on_message unpack key (rpc_chunk payload) st = Returned st' ∧
    m_router st' = (update_remote uuid snapshot (m_router st)).2 ∧
    m_gateway st' = Some g' ∧
    gateway_calls g'
      = gateway_calls g
          ++ ((λ it, cleanup uuid it.1) <$> diff_removed current snapshot)
          ++ ((λ it, consume uuid it.1 it.2) <$> diff_added current snapshot) ∧
    ∀ q d1 d2, current !! q = Some d1 → snapshot !! q = Some d2 → d1 ≠ d2 →
      ∃ before between after,
        gateway_calls g'
          = gateway_calls g ++ before ++ [cleanup uuid q] ++ between
              ++ [consume uuid q d2] ++ after.
Proof.
  intros Hunpack Hg uuid current.
  unfold on_message. rewrite Hunpack. fold uuid.
  unfold update_remote. fold current. cbv zeta.
  rewrite (gateway_apply_Some _ _ g) by done.
  eexists _, _. split; [done|]. split; [done|]. split; [done|].
  split; [done|].
  intros q d1 d2 Hcur Hsnap Hne.
  destruct (diff_changed_descriptor current snapshot q d1 d2 Hcur Hsnap Hne)
    as [Hrem Hadd].
  apply list_elem_of_split in Hrem as (r1 & r2 & ->).
  apply list_elem_of_split in Hadd as (a1 & a2 & ->).
  exists ((λ it, cleanup uuid it.1) <$> r1),
         (((λ it, cleanup uuid it.1) <$> r2)
            ++ ((λ it, consume uuid it.1 it.2) <$> a1)),
         ((λ it, consume uuid it.1 it.2) <$> a2).
  simpl. rewrite !fmap_app, !fmap_cons. simpl.
  by rewrite <- !app_assoc.
Qed.

(** What a run of [on_message] does to the peer registry and to the
    reactor's queue. *)
Lemma on_message_frame
    (unpack : string → exception + synchronize_result_type descriptor)
    key (message : message_t) st :
  match on_message unpack key message st with
  | Returned st' =>
      m_remotes st' = m_remotes st ∧
      m_reactor st'
        = m_reactor st ++
            match message with
            | rpc_error | rpc_choke => [{| erase_key := key |}]
            | _ => []
            end
  | Thrown e st' => st' = st
  | _ => True
  end.
Proof.
  unfold on_message. destruct message.
  - destruct (unpack payload) as [e|snapshot]; [done|].
    destruct (update_remote _ _ _) as [diff router].
    destruct (gateway_apply _ _) as [st'|e st'| |] eqn:Happly; [| |done..].
    + apply gateway_apply_frame in Happly as (-> & -> & _).
      by rewrite app_nil_r.
    + by apply gateway_apply_not_thrown in Happly.
  - destruct (drop_remote _ _) as [st'|e st'| |] eqn:Hdrop; [| |done..].
    + apply drop_remote_frame in Hdrop as [Hrem Hque]. simpl.
      by rewrite Hrem, Hque.
    + by apply drop_remote_not_thrown in Hdrop.
  - destruct (drop_remote _ _) as [st'|e st'| |] eqn:Hdrop; [| |done..].
    + apply drop_remote_frame in Hdrop as [Hrem Hque]. simpl.
      by rewrite Hrem, Hque.
    + by apply drop_remote_not_thrown in Hdrop.
  - simpl. by rewrite app_nil_r.
Qed.

Lemma on_failure_frame key (ec : option (Z * string)) st st' :
  on_failure key ec st = Returned st' →
  m_remotes st' = delete key (m_remotes st) ∧ m_reactor st' = m_reactor st.
Proof.
  unfold on_failure.
  destruct (drop_remote _ _) as [st2| | |] eqn:Hdrop; intros; simplify_eq.
  apply drop_remote_frame in Hdrop as [Hrem Hque]. simpl.
  rewrite Hrem, Hque. by destruct ec as [[??]|].
Qed.

Lemma on_timeout_frame key st st' :
  on_timeout key st = Returned st' →
  m_remotes st' = delete key (m_remotes st) ∧ m_reactor st' = m_reactor st.
Proof.
  unfold on_timeout.
  destruct (drop_remote _ _) as [st2| | |] eqn:Hdrop; intros; simplify_eq.
  apply drop_remote_frame in Hdrop as [Hrem Hque]. simpl.
  by rewrite Hrem, Hque.
Qed.

(** How a run of gateway calls ends: it returns, or the gateway is null. *)
Lemma gateway_apply_outcome (calls : list (gateway_call descriptor)) st :
  match gateway_apply calls st with
  | Returned st' => m_remotes st' = m_remotes st ∧ m_reactor st' = m_reactor st
  | Undefined => m_gateway st = None
  | _ => False
  end.
Proof. unfold gateway_apply. by destruct calls, (m_gateway st). Qed.

Lemma drop_remote_outcome uuid st :
  match drop_remote uuid st with
  | Returned st' => m_remotes st' = m_remotes st ∧ m_reactor st' = m_reactor st
  | Undefined => m_gateway st = None
  | _ => False
  end.
Proof.
  unfold drop_remote.
  destruct (remove_remote uuid (m_router st)) as [removed router].
  apply (gateway_apply_outcome _ (set_router router st)).
Qed.

(** C8.  The message callback never erases a peer entry itself.  On an
    error or a choke it returns with the entry in place and its erasure
    posted on the reactor; the erasure takes effect when the reactor runs
    its queue.  On a chunk or an unknown message it posts nothing, and when
    it throws (a chunk only) nothing has changed.  The failure and the
    timeout callbacks return with the entry erased and nothing posted.
    None of the callbacks aborts, the closing ones never throw, and the only
    way not to return is a call on a null gateway: with a gateway all the
    closing callbacks return. *)
Theorem message_callback_defers_erasure
    (unpack : string → exception + synchronize_result_type descriptor)
    key (message : message_t) (ec : option (Z * string)) st :
  match on_message unpack key message st with
  | Returned st' =>
      m_remotes st' = m_remotes st ∧
      m_reactor st'
        = m_reactor st ++
            match message with
            | rpc_error | rpc_choke => [{| erase_key := key |}]
            | _ => []
            end ∧
      (message = rpc_error ∨ message = rpc_choke →
         m_remotes (run_posted st') !! key = None)
  | Thrown e st' => (∃ payload, message = rpc_chunk payload) ∧ st' = st
  | Aborted => False
  | Undefined => m_gateway st = None
  end ∧
  match on_failure key ec st with
  | Returned st' =>
      m_remotes st' = delete key (m_remotes st) ∧ m_remotes st' !! key = None ∧
      m_reactor st' = m_reactor st
  | Undefined => m_gateway st = None
  | Thrown _ _ | Aborted => False
  end ∧
  match on_timeout key st with
  | Returned st' =>
      m_remotes st' = delete key (m_remotes st) ∧ m_remotes st' !! key = None ∧
      m_reactor st' = m_reactor st
  | Undefined => m_gateway st = None
  | Thrown _ _ | Aborted => False
  end ∧
  (is_Some (m_gateway st) →
     (message = rpc_error ∨ message = rpc_choke →
        ∃ st', on_message unpack key message st = Returned st') ∧
     (∃ st', on_failure key ec st = Returned st') ∧
     (∃ st', on_timeout key st = Returned st')).
Proof.
  assert (∀ st1 : locator_t descriptor pool,
            m_remotes st1 = m_remotes st → m_reactor st1 = m_reactor st →
            m_gateway st1 = m_gateway st →
            match
              match drop_remote (key_uuid key) st1 with
              | Returned st2 => Returned (post {| erase_key := key |} st2)
              | failed => failed
              end
            with
            | Returned st' =>
                m_remotes st' = m_remotes st ∧
                m_reactor st' = m_reactor st ++ [{| erase_key := key |}] ∧
                m_remotes (run_posted st') !! key = None
            | Undefined => m_gateway st = None
            | _ => False
            end) as Hposted.
  { intros st1 Hrem Hque Hgw.
    pose proof (drop_remote_outcome (key_uuid key) st1) as Hdrop.
    destruct (drop_remote _ _) as [st2| | |]; [|done|done|congruence].
    destruct Hdrop as [Hrem2 Hque2]. simpl.
    rewrite Hrem2, Hque2, Hrem, Hque. split; [done|]. split; [done|].
    rewrite run_posted_lookup. simpl. rewrite Hque2, Hque.
    rewrite bool_decide_eq_true_2; [done | apply posted_key_queued]. }
  assert (∀ st1 : locator_t descriptor pool,
            m_remotes st1 = m_remotes st → m_reactor st1 = m_reactor st →
            m_gateway st1 = m_gateway st →
            match
              match drop_remote (key_uuid key) st1 with
              | Returned st2 => Returned (erase_remote key st2)
              | failed => failed
              end
            with
            | Returned st' =>
                m_remotes st' = delete key (m_remotes st) ∧
                m_remotes st' !! key = None ∧ m_reactor st' = m_reactor st
            | Undefined => m_gateway st = None
            | _ => False
            end) as Herased.
  { intros st1 Hrem Hque Hgw.
    pose proof (drop_remote_outcome (key_uuid key) st1) as Hdrop.
    destruct (drop_remote _ _) as [st2| | |]; [|done|done|congruence].
    destruct Hdrop as [Hrem2 Hque2]. simpl.
    rewrite Hrem2, Hque2, Hrem, Hque. split; [done|].
    split; [apply lookup_delete_eq | done]. }
  split; [|split; [|split]].
  - unfold on_message. destruct message as [payload| | |id].
    + destruct (unpack payload) as [e|snapshot]; [by eauto|].
      destruct (update_remote _ _ _) as [diff router].
      pose proof (gateway_apply_outcome
                    (((λ it, cleanup (key_uuid key) it.1) <$> diff.2)
                       ++ ((λ it, consume (key_uuid key) it.1 it.2) <$> diff.1))
                    (set_router router st)) as Happly.
      destruct (gateway_apply _ _) as [st'| | |]; [|done..].
      destruct Happly as [-> ->]. simpl. rewrite app_nil_r.
      split; [done|]. split; [done|]. by intros [?|?].
    + specialize (Hposted
        (log log_info "node '%s' has been shut down" [arg_s (key_uuid key)] st)
        eq_refl eq_refl eq_refl).
      destruct (match drop_remote _ _ with Returned _ => _ | _ => _ end);
        [|done..].
      destruct Hposted as (? & ? & ?). by repeat split.
    + specialize (Hposted
        (log log_info "node '%s' has been shut down" [arg_s (key_uuid key)] st)
        eq_refl eq_refl eq_refl).
      destruct (match drop_remote _ _ with Returned _ => _ | _ => _ end);
        [|done..].
      destruct Hposted as (? & ? & ?). by repeat split.
    + simpl. rewrite app_nil_r. split; [done|]. split; [done|]. by intros [?|?].
  - unfold on_failure. destruct ec as [[value text]|]; by apply Herased.
  - unfold on_timeout. by apply Herased.
  - intros [g Hg]. split; [|split].
    + intros Hclosing. unfold on_message.
      destruct Hclosing as [-> | ->];
        rewrite (drop_remote_Some (key_uuid key) _ g) by done; by eexists.
    + unfold on_failure. destruct ec as [[value text]|];
        rewrite (drop_remote_Some (key_uuid key) _ g) by done; by eexists.
    + unfold on_timeout.
      rewrite (drop_remote_Some (key_uuid key) _ g) by done. by eexists.
Qed.

(** ** The announce timer *)

Lemma on_announce_timer_tick (pack : key_type → string)
    (write : string → Z * option (Z * string)) st :
  let st' := on_announce_timer pack write st in
  m_announce st' = m_announce st ++ [pack (announced_key st)] ∧
  same_state st st' ∧
  ∃ entries, m_log st' = m_log st ++ entries ∧
             Forall (λ entry, entry.1.1 = log_error) entries ∧
             length entries
               = (if write_failed (pack (announced_key st)) write then 1 else 0).
Proof.
  unfold on_announce_timer, write_failed.
  destruct (write (pack (announced_key st))) as [written ec]. simpl.
  case_bool_decide.
  - destruct ec as [[value message]|]; (split; [done|]); (split; [done|]);
      eexists; (split; [done|]); split; [|done| |done];
      by apply Forall_singleton.
  - split; [done|]. split; [done|]. exists []. by rewrite app_nil_r.
Qed.

Lemma announce_ticks_run (pack : key_type → string)
    (writes : list (string → Z * option (Z * string))) st :
  let st' := announce_ticks pack writes st in
  m_announce st'
    = m_announce st ++ replicate (length writes) (pack (announced_key st)) ∧
  same_state st st' ∧
  ∃ entries, m_log st' = m_log st ++ entries ∧
             Forall (λ entry, entry.1.1 = log_error) entries ∧
             length entries
               = length (filter (λ write,
                                   write_failed (pack (announced_key st)) write = true)
                                writes).
Proof.
  unfold announce_ticks. revert st.
  induction writes as [|write writes IH]; intros st.
  - simpl. rewrite app_nil_r. split; [done|]. split; [done|].
    exists []. by rewrite app_nil_r.
  - simpl foldl.
    destruct (on_announce_timer_tick pack write st)
      as (Hout & Hsame & entries1 & Hlog1 & Herr1 & Hlen1).
    destruct (IH (on_announce_timer pack write st))
      as (Houts & Hsames & entries2 & Hlog2 & Herr2 & Hlen2).
    assert (announced_key (on_announce_timer pack write st) = announced_key st)
      as Hkey.
    { unfold announced_key. by destruct Hsame as (-> & _). }
    rewrite Hkey in Houts, Hlen2.
    split; [|split].
    + rewrite Houts, Hout, <- app_assoc. done.
    + unfold same_state in *. destruct_and!. repeat split; congruence.
    + exists (entries1 ++ entries2). split; [|split].
      * by rewrite Hlog2, Hlog1, app_assoc.
      * by apply Forall_app.
      * rewrite length_app, Hlen1, Hlen2, filter_cons.
        destruct (write_failed _ write); by case_decide.
Qed.

(** C9.  The announce timer is started to tick at once and then every 5
    seconds.  Each tick hands the announce socket one buffer: the packed
    key (uuid, hostname, locator port) of this node.  A tick whose write
    fails adds an error entry to the log; no tick changes the timer or any
    other part of the locator, so the ticks after a failure announce as
    before. *)
Theorem announce_timer_ticks_survive_write_failures (pack : key_type → string)
    (writes : list (string → Z * option (Z * string))) st :
  let st0 := start_announce_timer st in
  let st' := announce_ticks pack writes st0 in
  let buffer :=
    pack (network_uuid (m_context st), network_hostname (m_context st),
          network_locator (m_context st)) in
  m_announce_timer st0 = Some (0%Z, 5%Z) ∧
  (∀ n, timer_tick_time (0%Z, 5%Z) n = (5 * Z.of_nat n)%Z) ∧
  m_announce st' = m_announce st ++ replicate (length writes) buffer ∧
  same_state st0 st' ∧
  ∃ entries, m_log st' = m_log st ++ entries ∧
             Forall (λ entry, entry.1.1 = log_error) entries ∧
             length entries
               = length (filter (λ write, write_failed buffer write = true) writes).
Proof.
  intros st0 st' buffer.
  split; [done|]. split; [intros n; unfold timer_tick_time; simpl; lia|].
  apply (announce_ticks_run pack writes st0).
Qed.

(** ** Peer entries and the remote catalog *)

Lemma peers_grow_refl st : peers_grow st st.
Proof. done. Qed.

Lemma peers_grow_trans st1 st2 st3 :
  peers_grow st1 st2 → peers_grow st2 st3 → peers_grow st1 st3.
Proof.
  unfold peers_grow. intros (-> & -> & ?) (-> & -> & ?).
  repeat split; [done..|set_solver].
Qed.

Lemma peers_grow_log p format args st : peers_grow st (log p format args st).
Proof. done. Qed.

Lemma covered_grow st st' : peers_grow st st' → covered st → covered st'.
Proof.
  intros (Hcat & Hque & Hdom) Hcov uuid Hin. rewrite Hcat in Hin.
  destruct (Hcov uuid Hin) as (key & Hkey & Hpending & Huuid).
  exists key. rewrite Hque. auto.
Qed.

Lemma connect_first_frame (connect : endpoint → option exception) uuid
    (endpoints : list endpoint) st :
  match connect_first connect uuid endpoints st with
  | Returned (_, st') | Thrown _ (_, st') =>
      peers_grow st st' ∧ m_remotes st' = m_remotes st
  | _ => True
  end.
Proof.
  revert st. induction endpoints as [|it rest IH]; intros st; simpl; [done|].
  destruct (connect it) as [e|]; [|done].
  destruct e; try done.
  specialize (IH (log log_warning
    "unable to connect to node '%s' via endpoint '%s' - [%d] %s"
    [arg_s uuid; arg_endpoint it; arg_d code; arg_s what] st)).
  destruct (connect_first _ _ _ _) as [[? st']|? [? st']| |]; done.
Qed.

Lemma reset_heartbeat_grow key st : peers_grow st (reset_heartbeat key st).
Proof.
  unfold peers_grow, reset_heartbeat. simpl. by rewrite dom_alter_L.
Qed.

Lemma discover_frame (query : string → Z → exception + list endpoint)
    (connect : endpoint → option exception) key st :
  match discover query connect key st with
  | Returned (_, st') | Thrown _ (_, st') => peers_grow st st'
  | _ => True
  end.
Proof.
  unfold discover.
  destruct (query _ _) as [e|endpoints]; [by destruct e|].
  pose proof (connect_first_frame connect (key_uuid key) endpoints
    (log log_info "discovered node '%s' on '%s:%d'"
       [arg_s (key_uuid key); arg_s (key_hostname key); arg_d (key_port key)] st))
    as Hframe.
  destruct (connect_first _ _ _ _) as [[[connected|] st']|? [? st']| |];
    try done.
  - destruct Hframe as [(Hcat & Hque & Hdom) Hrem].
    repeat split; simpl; [done..|]. rewrite dom_insert_L. set_solver.
  - by destruct Hframe as [? _].
  - by destruct Hframe as [? _].
Qed.

Lemma on_announce_event_frame (unpack : string → exception + key_type)
    (query : string → Z → exception + list endpoint)
    (connect : endpoint → option exception)
    (size : Z) (ec : option (Z * string)) (buffers : string) st :
  match on_announce_event unpack query connect size ec buffers st with
  | Returned st' | Thrown _ st' => peers_grow st st'
  | _ => True
  end.
Proof.
  unfold on_announce_event. case_bool_decide.
  { by destruct ec as [[??]|]. }
  destruct (unpack buffers) as [e|key]; [by destruct e|].
  destruct (m_remotes st !! key); [apply reset_heartbeat_grow|].
  pose proof (discover_frame query connect key st) as Hframe.
  destruct (discover _ _ _ _) as [[[[]|] st']|? [? st']| |]; try done.
  eapply peers_grow_trans; [done | apply reset_heartbeat_grow].
Qed.

Lemma attach_frame build (from_string : string → exception + string) name
    (service : actor_t descriptor) st :
  match attach build from_string name service st with
  | Returned st' | Thrown _ st' => peers_grow st st' ∧ m_remotes st' = m_remotes st
  | _ => True
  end.
Proof.
  unfold attach.
  assert (match allocate_port st with
          | inl _ => True
          | inr (_, st1) => peers_grow st st1 ∧ m_remotes st1 = m_remotes st
          end) as Halloc.
  { unfold allocate_port. destruct (network_ports _); [|done].
    by destruct (pool_empty _). }
  destruct build, (find_service name (m_services st)); try done;
    destruct (allocate_port st) as [e|[port st1]]; try done;
    destruct (from_string _); try done;
    destruct (actor_run _ _); try done;
    destruct Halloc as [(Hcat & Hque & Hdom) Hrem];
    simpl; destruct (m_synchronizer st1); simpl; done.
Qed.

Lemma refresh_frame (to_map : string → exception + gmap string Z) name st :
  match refresh to_map name st with
  | Returned st' | Thrown _ st' => peers_grow st st' ∧ m_remotes st' = m_remotes st
  | _ => True
  end.
Proof. unfold refresh. destruct (to_map name) as [e|group]; [by destruct e|done]. Qed.

Lemma detach_frame build name st :
  match detach build name st with
  | Returned (_, st') | Thrown _ (_, st') =>
      peers_grow st st' ∧ m_remotes st' = m_remotes st
  | _ => True
  end.
Proof.
  assert (router_inverted (remove_local name (m_router st))
            = router_inverted (m_router st)) as Hinverted.
  { unfold remove_local. by destruct (router_has name (m_router st)). }
  unfold detach.
  destruct (list_find _ _) as [[i found]|]; [|by destruct build].
  destruct (location found.2), (network_ports (m_context st)); try done;
    unfold peers_grow, catalog_uuids;
    destruct (m_synchronizer _); simpl; by rewrite Hinverted.
Qed.

Lemma connect_frame (federated : bool) (group : string)
    (from_string : string → exception + string)
    (sink : option exception) (bound joined : option Z)
    (gateway : exception + gateway_t descriptor)
    (announce : option exception) (slot : synchronize_slot_t descriptor) st :
  match connect federated group from_string sink bound joined gateway
          announce slot st with
  | Returned st' | Thrown _ st' => peers_grow st st' ∧ m_remotes st' = m_remotes st
  | _ => False
  end.
Proof.
  unfold connect.
  destruct (from_string group) as [e|address]; [done|].
  destruct federated; [destruct sink, bound, joined, gateway|];
    try done; by destruct announce.
Qed.

(** [disconnect] leaves the router and the reactor's queue; it empties the
    peer registry of a federated node. *)
Lemma disconnect_frame (federated : bool) st :
  match disconnect federated st with
  | Returned st' =>
      is_Some (m_synchronizer st) ∧
      m_router st' = m_router st ∧ m_reactor st' = m_reactor st ∧
      m_remotes st' = (if federated then ∅ else m_remotes st)
  | Undefined => m_synchronizer st = None
  | _ => False
  end.
Proof.
  unfold disconnect. destruct (m_synchronizer st); [|done].
  by destruct federated.
Qed.

Lemma drop_remote_router uuid st st' :
  drop_remote uuid st = Returned st' →
  m_router st' = (remove_remote uuid (m_router st)).2.
Proof.
  unfold drop_remote.
  destruct (remove_remote uuid (m_router st)) as [removed router].
  by intros (_ & _ & -> & _)%gateway_apply_frame.
Qed.

(** The uuids of the catalog after a message from the peer [key]. *)
Lemma on_message_catalog
    (unpack : string → exception + synchronize_result_type descriptor)
    key (message : message_t) st st' :
  on_message unpack key message st = Returned st' →
  catalog_uuids st' ⊆
    match message with
    | rpc_chunk _ => {[key_uuid key]} ∪ catalog_uuids st
    | rpc_error | rpc_choke => catalog_uuids st ∖ {[key_uuid key]}
    | rpc_other _ => catalog_uuids st
    end.
Proof.
  unfold on_message, catalog_uuids. destruct message.
  - destruct (unpack payload) as [e|snapshot]; [done|].
    pose proof (update_remote_inverted_dom (key_uuid key) snapshot (m_router st)).
    destruct (update_remote _ _ _) as [diff router].
    by intros (_ & _ & -> & _)%gateway_apply_frame.
  - destruct (drop_remote _ _) as [st2| | |] eqn:Hdrop; intros; simplify_eq.
    apply drop_remote_router in Hdrop. simpl in *. rewrite Hdrop. simpl.
    by rewrite dom_delete_L.
  - destruct (drop_remote _ _) as [st2| | |] eqn:Hdrop; intros; simplify_eq.
    apply drop_remote_router in Hdrop. simpl in *. rewrite Hdrop. simpl.
    by rewrite dom_delete_L.
  - by intros [= <-].
Qed.

Lemma closing_catalog key st st' :
  (on_timeout key st = Returned st' ∨ ∃ ec, on_failure key ec st = Returned st') →
  catalog_uuids st' = catalog_uuids st ∖ {[key_uuid key]}.
Proof.
  unfold on_timeout, on_failure, catalog_uuids.
  intros [Hret | [ec Hret]];
    destruct (drop_remote _ _) as [st2| | |] eqn:Hdrop; simplify_eq;
    apply drop_remote_router in Hdrop; simpl; rewrite Hdrop; simpl;
    rewrite dom_delete_L; by try destruct ec as [[??]|].
Qed.

(** Every event that keeps the peers keeps the catalog covered. *)
Lemma covered_dispatch (ev : event descriptor) st st' :
  keeps_peers ev → deliverable ev st → covered st →
  (dispatch ev st = Returned st' ∨ ∃ e, dispatch ev st = Thrown e st') →
  covered st'.
Proof.
  intros Hkeeps Hdel Hcov Hstep.
  destruct ev as [unpack query conn size ec buffers | pack write
                 | unpack key message | key ec | key |
                 | build from_string name service | to_map name
                 | build name
                 | federated group from_string sink bound joined gateway
                     announce slot
                 | federated];
    simpl in Hdel, Hstep.
  - pose proof (on_announce_event_frame unpack query conn size ec buffers st)
      as Hframe.
    destruct Hstep as [Hret | [e Hthrow]];
      [rewrite Hret in Hframe | rewrite Hthrow in Hframe];
      by eapply covered_grow.
  - destruct Hstep as [[= <-] | [e ?]]; [|done].
    destruct (on_announce_timer_tick pack write st) as (_ & Hsame & _).
    eapply covered_grow; [|done]. unfold same_state in Hsame. destruct_and!.
    unfold peers_grow, catalog_uuids. repeat split; [congruence..|].
    by match goal with H : m_remotes _ = _ |- _ => rewrite H end.
  - destruct Hdel as [Hlive Hfresh].
    pose proof (on_message_frame unpack key message st) as Hframe.
    destruct Hstep as [Hret | [e Hthrow]];
      [rewrite Hret in Hframe | rewrite Hthrow in Hframe; by subst].
    destruct Hframe as [Hrem Hque].
    apply on_message_catalog in Hret as Hcat.
    intros uuid Hin. rewrite Hrem, Hque.
    destruct message.
    + rewrite app_nil_r.
      destruct (decide (uuid = key_uuid key)) as [->|Hne]; [by exists key|].
      apply Hcov. set_solver.
    + destruct (Hcov uuid) as (k & Hk & Hpending & Huuid); [set_solver|].
      exists k. repeat split; [done| |done].
      rewrite fmap_app, elem_of_app. intros [?|Hlast]; [done|].
      apply list_elem_of_singleton in Hlast. simpl in Hlast. set_solver.
    + destruct (Hcov uuid) as (k & Hk & Hpending & Huuid); [set_solver|].
      exists k. repeat split; [done| |done].
      rewrite fmap_app, elem_of_app. intros [?|Hlast]; [done|].
      apply list_elem_of_singleton in Hlast. simpl in Hlast. set_solver.
    + rewrite app_nil_r. apply Hcov. set_solver.
  - destruct Hstep as [Hret | [e Hthrow]].
    + apply on_failure_frame in Hret as Hframe. destruct Hframe as [Hrem Hque].
      intros uuid Hin. rewrite Hrem, Hque.
      rewrite (closing_catalog key st st') in Hin by (right; by exists ec).
      destruct (Hcov uuid) as (k & Hk & Hpending & Huuid); [set_solver|].
      exists k. repeat split; [|done..]. rewrite dom_delete_L. set_solver.
    + unfold on_failure in Hthrow.
      destruct (drop_remote _ _) eqn:Hdrop; simplify_eq.
      by apply drop_remote_not_thrown in Hdrop.
  - destruct Hstep as [Hret | [e Hthrow]].
    + apply on_timeout_frame in Hret as Hframe. destruct Hframe as [Hrem Hque].
      intros uuid Hin. rewrite Hrem, Hque.
      rewrite (closing_catalog key st st') in Hin by (by left).
      destruct (Hcov uuid) as (k & Hk & Hpending & Huuid); [set_solver|].
      exists k. repeat split; [|done..]. rewrite dom_delete_L. set_solver.
    + unfold on_timeout in Hthrow.
      destruct (drop_remote _ _) eqn:Hdrop; simplify_eq.
      by apply drop_remote_not_thrown in Hdrop.
  - destruct Hstep as [[= <-] | [e ?]]; [|done].
    destruct (run_posted_frame st) as (Hque & Hrouter & _).
    intros uuid Hin. unfold catalog_uuids in Hin. rewrite Hrouter in Hin.
    destruct (Hcov uuid Hin) as (k & Hk & Hpending & Huuid).
    exists k. rewrite Hque. repeat split; [|set_solver|done].
    apply elem_of_dom. rewrite run_posted_lookup.
    rewrite bool_decide_eq_false_2 by done. by apply elem_of_dom.
  - pose proof (attach_frame build from_string name service st) as Hframe.
    destruct Hstep as [Hret | [e Hthrow]];
      [rewrite Hret in Hframe | rewrite Hthrow in Hframe];
      destruct Hframe as [? _]; by eapply covered_grow.
  - pose proof (refresh_frame to_map name st) as Hframe.
    destruct Hstep as [Hret | [e Hthrow]];
      [rewrite Hret in Hframe | rewrite Hthrow in Hframe];
      destruct Hframe as [? _]; by eapply covered_grow.
  - pose proof (detach_frame build name st) as Hframe.
    destruct (detach build name st) as [[actor st1]|e1 [actor st1]| |];
      destruct Hstep as [Hret | [e Hthrow]]; simplify_eq;
      destruct Hframe as [? _]; by eapply covered_grow.
  - pose proof (connect_frame federated group from_string sink bound joined
                  gateway announce slot st) as Hframe.
    destruct Hstep as [Hret | [e Hthrow]];
      [rewrite Hret in Hframe | rewrite Hthrow in Hframe];
      destruct Hframe as [? _]; by eapply covered_grow.
  - destruct federated; [done|].
    pose proof (disconnect_frame false st) as Hframe.
    destruct Hstep as [Hret | [e Hthrow]];
      [rewrite Hret in Hframe | by rewrite Hthrow in Hframe].
    destruct Hframe as (_ & Hrouter & Hque & Hrem).
    eapply covered_grow; [|done].
    unfold peers_grow, catalog_uuids. by rewrite Hrouter, Hque, Hrem.
Qed.

Lemma reachable_by_mono (allowed allowed' : event descriptor → Prop) st :
  (∀ ev, allowed ev → allowed' ev) →
  reachable_by allowed st → reachable_by allowed' st.
Proof.
  intros Hsub. induction 1 as [st Hinit | st ev st' _ IH Hev Hdel Hstep
                              | st ev e st' _ IH Hev Hdel Hstep].
  - by apply reachable_initial.
  - eapply reachable_returned; eauto.
  - eapply reachable_thrown; eauto.
Qed.

Lemma reachable_covered st : reachable_by keeps_peers st → covered st.
Proof.
  induction 1 as [st (Hrem & Hque & Hinv) | st ev st' _ IH Hev Hdel Hstep
                 | st ev e st' _ IH Hev Hdel Hstep].
  - intros uuid Hin. unfold catalog_uuids in Hin. rewrite Hinv in Hin. set_solver.
  - eapply covered_dispatch; eauto.
  - eapply covered_dispatch; eauto.
Qed.

(** C4, as the code has it.  Until a federated node is disconnected, each
    uuid of the inverted remote catalog is the uuid of at least one peer
    entry.  The peer registry is keyed by the whole announced key: an
    announce of a registered key adds no entry, an announce of any other
    key that connects adds one, whether or not its uuid is registered
    under another hostname or port, and neither touches the router, so an
    entry may exist without its uuid in the catalog; messages on entries
    that share a uuid act on the same uuid of the router and of the
    gateway.  [disconnect] on a federated node ends the covering: the
    locator it leaves has an empty peer registry and the remote catalog it
    had. *)
Theorem peer_entries_cover_remote_catalog st :
  reachable_by keeps_peers st →
  (∀ uuid, uuid ∈ dom (router_inverted (m_router st)) →
     ∃ key, key ∈ dom (m_remotes st) ∧ key_uuid key = uuid) ∧
  (∀ (unpack : string → exception + key_type)
     (query : string → Z → exception + list endpoint)
     (conn : endpoint → option exception) size ec buffers key,
     (0 < size)%Z → unpack buffers = inr key →
     (key ∈ dom (m_remotes st) →
        ∃ st', on_announce_event unpack query conn size ec buffers st
                 = Returned st' ∧
               dom (m_remotes st') = dom (m_remotes st) ∧
               m_router st' = m_router st) ∧
     (key ∉ dom (m_remotes st) →
        ∀ accepted rest,
          query (key_hostname key) (key_port key) = inr (accepted :: rest) →
          conn accepted = None →
          ∃ st', on_announce_event unpack query conn size ec buffers st
                   = Returned st' ∧
                 dom (m_remotes st') = {[key]} ∪ dom (m_remotes st) ∧
                 m_router st' = m_router st)) ∧
  (∀ unpack (k1 k2 : key_type) (message : message_t),
     key_uuid k1 = key_uuid k2 →
     match on_message unpack k1 message st, on_message unpack k2 message st with
     | Returned st1, Returned st2 =>
         m_router st1 = m_router st2 ∧ m_gateway st1 = m_gateway st2
     | Thrown e1 st1, Thrown e2 st2 => e1 = e2 ∧ st1 = st2
     | Undefined, Undefined => True
     | _, _ => False
     end) ∧
  (∀ s, m_synchronizer st = Some s →
     ∃ st', disconnect true st = Returned st' ∧ reachable st' ∧
            m_remotes st' = ∅ ∧
            router_inverted (m_router st') = router_inverted (m_router st)).
Proof.
  intros Hreach. split; [|split; [|split]].
  - intros uuid Hin.
    destruct (reachable_covered st Hreach uuid Hin) as (key & ? & _ & ?).
    by exists key.
  - intros unpack query conn size ec buffers key Hsize Hkey.
    unfold on_announce_event.
    rewrite bool_decide_eq_false_2 by lia. rewrite Hkey. split.
    + intros [known Hknown]%elem_of_dom. rewrite Hknown.
      eexists. split; [done|]. simpl. by rewrite dom_alter_L.
    + intros Hfresh%not_elem_of_dom accepted rest Hquery Haccepted.
      rewrite Hfresh. unfold discover. rewrite Hquery. simpl.
      rewrite Haccepted. eexists. split; [done|]. simpl.
      by rewrite dom_alter_L, dom_insert_L.
  - intros unpack k1 k2 message Huuid. unfold on_message. rewrite Huuid.
    destruct message as [payload| | |id].
    + destruct (unpack payload) as [e|snapshot]; [done|].
      destruct (update_remote _ _ _) as [diff router].
      pose proof (gateway_apply_outcome
                    (((λ it, cleanup (key_uuid k2) it.1) <$> diff.2)
                       ++ ((λ it, consume (key_uuid k2) it.1 it.2) <$> diff.1))
                    (set_router router st)) as Happly.
      by destruct (gateway_apply _ _).
    + pose proof (drop_remote_outcome (key_uuid k2)
        (log log_info "node '%s' has been shut down" [arg_s (key_uuid k2)] st))
        as Hdrop.
      by destruct (drop_remote _ _).
    + pose proof (drop_remote_outcome (key_uuid k2)
        (log log_info "node '%s' has been shut down" [arg_s (key_uuid k2)] st))
        as Hdrop.
      by destruct (drop_remote _ _).
    + done.
  - intros s Hsync.
    assert (disconnect true st
              = Returned (set_remotes ∅ (set_gateway None
                            (set_announce_timer None (set_synchronizer None st)))))
      as Hret.
    { unfold disconnect. by rewrite Hsync. }
    eexists. split; [exact Hret|]. split; [|done].
    eapply (reachable_returned _ st (disconnect_event true)); [|done|done|exact Hret].
    eapply reachable_by_mono; [|exact Hreach]. done.
Qed.

End peer_properties.

(** * The samples, run *)

Lemma sample_runs :
  dispatch (announce_from "a1") sample_federated = Returned sample_discovered ∧
  dispatch (announce_from "a2") sample_discovered = Returned sample_two_entries ∧
  dispatch (chunk_from peer_a1 "d1") sample_discovered = Returned sample_synced.
Proof. repeat split; vm_compute; reflexivity. Qed.

Lemma sample_discovered_reachable : reachable_by keeps_peers sample_discovered.
Proof.
  eapply (reachable_returned _ sample_federated (announce_from "a1")).
  - by apply reachable_initial.
  - done.
  - done.
  - apply sample_runs.
Qed.

Lemma sample_two_entries_reachable : reachable_by keeps_peers sample_two_entries.
Proof.
  eapply (reachable_returned _ sample_discovered (announce_from "a2")).
  - apply sample_discovered_reachable.
  - done.
  - done.
  - apply sample_runs.
Qed.

Lemma sample_synced_connected : reachable_by keeps_peers sample_synced.
Proof.
  eapply (reachable_returned _ sample_discovered (chunk_from peer_a1 "d1")).
  - apply sample_discovered_reachable.
  - done.
  - split.
    + apply elem_of_dom. eexists. vm_compute. reflexivity.
    + assert (m_reactor sample_discovered = []) as -> by (vm_compute; reflexivity).
      apply not_elem_of_nil.
  - apply sample_runs.
Qed.

Lemma sample_synced_reachable : reachable sample_synced.
Proof.
  eapply reachable_by_mono; [|apply sample_synced_connected]. done.
Qed.

(** ** Witnesses *)

(** C1 at a locator with "storage" attached and no gateway: "storage" is
    served locally, "cache" is not available. *)
Lemma resolve_witness :
  resolve 0 "storage" sample_with_storage = inr "storage@node-b" ∧
  resolve 0 "cache" sample_with_storage
    = inl (error_t "the specified service is not available").
Proof.
  split.
  - destruct (resolve_prefers_local_then_gateway 0 "storage" sample_with_storage)
      as (Hlocal & _).
    destruct Hlocal as (local & _ & Hfind & ->).
    { vm_compute. apply list_elem_of_here. }
    vm_compute in Hfind. by injection Hfind as <-.
  - destruct (resolve_prefers_local_then_gateway 0 "cache" sample_with_storage)
      as (_ & _ & Hnone & _).
    apply Hnone; [|reflexivity].
    vm_compute. intros Hin. apply list_elem_of_singleton in Hin. discriminate.
Defined.

(** C5 at a locator whose pool has run dry: attaching the fresh name
    "cache" throws and changes nothing. *)
Lemma attach_fresh_name_witness :
  ("cache" ∉ (m_services sample_dry).*1) ∧
  attach checked sample_from_string "cache" (sample_actor "cache@node-b") sample_dry
    = Thrown (error_t "no ports left for allocation") sample_dry.
Proof.
  assert ("cache" ∉ (m_services sample_dry).*1) as Hfresh.
  { vm_compute. intros Hin. apply list_elem_of_singleton in Hin. discriminate. }
  split; [exact Hfresh|].
  apply (attach_fresh_name checked sample_from_string "cache"
           (sample_actor "cache@node-b") sample_dry Hfresh).
  reflexivity.
Defined.

(** C10 at a locator with the one free port 5001 and an actor whose bind
    fails: the exception leaves [attach] and the pool is empty. *)
Lemma attach_bind_failure_witness :
  ∃ st', attach checked sample_from_string "cache" (busy_actor "cache@node-b")
           sample_with_storage
           = Thrown (system_error 98 "address already in use") st' ∧
         m_ports st' = [] ∧
         m_services st' = m_services sample_with_storage ∧
         m_router st' = m_router sample_with_storage ∧
         m_synchronizer st' = m_synchronizer sample_with_storage.
Proof.
  refine (attach_bind_failure_keeps_port_removed checked sample_from_string
            "cache" (busy_actor "cache@node-b") sample_with_storage "127.0.0.1"
            (system_error 98 "address already in use") _ _ _ _ _).
  - intros _. vm_compute. intros Hin.
    apply list_elem_of_singleton in Hin. discriminate.
  - by eexists.
  - reflexivity.
  - reflexivity.
  - reflexivity.
Defined.

(** C6 at a storage that has lost the group: [refresh] returns and the
    group is removed. *)
Lemma refresh_witness :
  (∃ st', refresh sample_storage "caches" sample_with_storage = Returned st' ∧
          m_router st' = remove_group "caches" (m_router sample_with_storage)) ∧
  refresh broken_storage "caches" sample_with_storage
    = Thrown (foreign_exception "bad allocation") sample_with_storage ∧
  refresh sample_storage "storages" sample_with_storage
    = Returned (set_router
                  (add_group "storages" {["storage" := 1%Z]}
                     (m_router sample_with_storage))
                  sample_with_storage).
Proof.
  destruct (refresh_reads_group_or_assumes_deletion sample_storage "caches"
              sample_with_storage) as (_ & Hdeleted & _).
  destruct (refresh_reads_group_or_assumes_deletion broken_storage "caches"
              sample_with_storage) as (_ & _ & Hother).
  destruct (refresh_reads_group_or_assumes_deletion sample_storage "storages"
              sample_with_storage) as (Hread & _).
  split; [|split].
  - destruct (Hdeleted "no such file" eq_refl) as (st' & Hret & Hrouter & _).
    by exists st'.
  - by apply Hother.
  - by apply Hread.
Defined.

(** C2 at the locator that holds the snapshot of "node-a": when the
    heartbeat of the peer times out, the gateway is told to clean "q" up,
    the entry is gone and so is the uuid. *)
Lemma peer_close_witness :
  ∃ st', on_timeout peer_a1 sample_synced = Returned st' ∧
         (∃ g', m_gateway st' = Some g' ∧
                gateway_calls g'
                  = [consume "node-a" "q" "d1"; cleanup "node-a" "q"]) ∧
         m_remotes st' = delete peer_a1 (m_remotes sample_synced) ∧
         router_inverted (m_router st') !! "node-a" = None.
Proof.
  assert (m_gateway sample_synced = Some sample_synced_gateway) as Hg
    by (vm_compute; reflexivity).
  destruct (peer_close_drops_remote_services sample_unpack peer_a1 None
              sample_synced sample_synced_gateway Hg)
    as (_ & _ & _ & _ & st' & Hret & Hclosed & Hrem).
  destruct Hclosed as (_ & (g' & Hg' & Hcalls) & _ & Hgone & _).
  exists st'. split; [exact Hret|]. split; [|split; [exact Hrem | exact Hgone]].
  exists g'. split; [exact Hg'|]. rewrite Hcalls. vm_compute. reflexivity.
Defined.

(** C7 at the same locator: "node-a" republishes "q" with the descriptor
    "d2"; the gateway cleans "q" up, then consumes it with "d2". *)
Lemma chunk_descriptor_change_witness :
  ∃ st' g',
    on_message sample_unpack peer_a1 (rpc_chunk "d2") sample_synced = Returned st' ∧
    m_gateway st' = Some g' ∧
    gateway_calls g'
      = [consume "node-a" "q" "d1"; cleanup "node-a" "q"; consume "node-a" "q" "d2"].
Proof.
  assert (m_gateway sample_synced = Some sample_synced_gateway) as Hg
    by (vm_compute; reflexivity).
  destruct (chunk_cleanups_precede_consumes sample_unpack peer_a1 "d2"
              {["q" := "d2"]} sample_synced sample_synced_gateway eq_refl Hg)
    as (st' & g' & Hret & _ & Hg' & Hcalls & _).
  exists st', g'. split; [exact Hret|]. split; [exact Hg'|].
  rewrite Hcalls. vm_compute. reflexivity.
Defined.

(** C8 at the same locator: a choke leaves the entry of the peer in place
    and posts its erasure, and the entry is gone once the reactor has run;
    a failure of the channel and a heartbeat timeout return with the entry
    erased and nothing posted. *)
Lemma deferred_erasure_witness :
  (∃ st', on_message sample_unpack peer_a1 rpc_choke sample_synced = Returned st' ∧
          m_remotes st' = m_remotes sample_synced ∧
          m_reactor st' = [{| erase_key := peer_a1 |}] ∧
          m_remotes (run_posted st') !! peer_a1 = None) ∧
  (∃ st', on_failure peer_a1 None sample_synced = Returned st' ∧
          m_remotes st' !! peer_a1 = None ∧ m_reactor st' = []) ∧
  (∃ st', on_timeout peer_a1 sample_synced = Returned st' ∧
          m_remotes st' !! peer_a1 = None ∧ m_reactor st' = []).
Proof.
  destruct (message_callback_defers_erasure sample_unpack peer_a1 rpc_choke None
              sample_synced) as (Hmessage & Hfailure & Htimeout & _).
  assert (m_reactor sample_synced = []) as Hque by (vm_compute; reflexivity).
  split; [|split].
  - destruct (on_message sample_unpack peer_a1 rpc_choke sample_synced)
      as [st'| | |] eqn:Hrun; [|discriminate Hrun..].
    destruct Hmessage as (Hrem & Hposted & Hlater).
    exists st'. split; [reflexivity|]. split; [exact Hrem|].
    split; [by rewrite Hposted, Hque | apply Hlater; by right].
  - destruct (on_failure peer_a1 None sample_synced)
      as [st'| | |] eqn:Hrun; [|discriminate Hrun..].
    destruct Hfailure as (_ & Hgone & Hsame).
    exists st'. split; [reflexivity|]. split; [exact Hgone | by rewrite Hsame].
  - destruct (on_timeout peer_a1 sample_synced)
      as [st'| | |] eqn:Hrun; [|discriminate Hrun..].
    destruct Htimeout as (_ & Hgone & Hsame).
    exists st'. split; [reflexivity|]. split; [exact Hgone | by rewrite Hsame].
Defined.

(** C9 over three ticks, the second of which cannot write: three
    announces went out and one error was logged. *)
Lemma announce_ticks_witness :
  let st' :=
    announce_ticks sample_pack [write_all; write_none; write_all]
      (start_announce_timer sample_locator) in
  m_announce st' = ["node-b|b.example"; "node-b|b.example"; "node-b|b.example"] ∧
  m_announce_timer st' = Some (0%Z, 5%Z) ∧
  length (m_log st') = 1.
Proof.
  intros st'.
  destruct (announce_timer_ticks_survive_write_failures sample_pack
              [write_all; write_none; write_all] sample_locator)
    as (Htimer & _ & Hout & Hsame & entries & Hlog & _ & Hlen).
  split; [exact Hout|]. split.
  - destruct Hsame as (_ & _ & _ & _ & _ & _ & _ & _ & Hsame).
    unfold st'. rewrite Hsame. exact Htimer.
  - fold st' in Hlog. rewrite Hlog, length_app, Hlen. reflexivity.
Defined.

(** C4 at the locator that holds the snapshot of "node-a": the uuid of
    the catalog belongs to a peer entry; once the node is disconnected the
    uuid is still in the catalog and the registry is empty. *)
Lemma peer_entries_cover_witness :
  reachable_by keeps_peers sample_synced ∧
  (∃ key, key ∈ dom (m_remotes sample_synced) ∧ key_uuid key = "node-a") ∧
  ∃ st', disconnect true sample_synced = Returned st' ∧ reachable st' ∧
         m_remotes st' = ∅ ∧ "node-a" ∈ dom (router_inverted (m_router st')).
Proof.
  split; [exact sample_synced_connected|].
  destruct (peer_entries_cover_remote_catalog sample_synced sample_synced_connected)
    as (Hcovered & _ & _ & Hdisconnect).
  assert ("node-a" ∈ dom (router_inverted (m_router sample_synced))) as Hin.
  { apply elem_of_dom. eexists. vm_compute. reflexivity. }
  split; [by apply Hcovered|].
  destruct (Hdisconnect {| m_upstreams := [[]] |} eq_refl)
    as (st' & Hret & Hreach & Hrem & Hcat).
  exists st'. split; [exact Hret|]. split; [exact Hreach|].
  split; [exact Hrem | by rewrite Hcat].
Defined.

(** ** Counterexamples *)

(** C4 as stated fails: after two announces of "node-a" that differ in the
    hostname only, the registry holds two entries with the same uuid. *)
Lemma peer_entries_share_uuid :
  reachable_by keeps_peers sample_two_entries ∧
  ¬ (∀ k1 k2, k1 ∈ dom (m_remotes sample_two_entries) →
              k2 ∈ dom (m_remotes sample_two_entries) →
              key_uuid k1 = key_uuid k2 → k1 = k2).
Proof.
  split; [exact sample_two_entries_reachable|].
  intros Hinjective.
  assert (peer_a1 = peer_a2) as Heq; [|discriminate Heq].
  apply Hinjective; [| |reflexivity];
    apply elem_of_dom; eexists; vm_compute; reflexivity.
Qed.

(** C5 as stated fails: attaching a name that is already attached raises no
    error.  A checked build stops at the assertion; an [NDEBUG] build
    attaches the service a second time. *)
Lemma attach_attached_name_raises_nothing :
  "storage" ∈ (m_services sample_with_storage).*1 ∧
  attach checked sample_from_string "storage" (sample_actor "storage@2")
    sample_with_storage = Aborted ∧
  (∃ st', attach NDEBUG sample_from_string "storage" (sample_actor "storage@2")
            sample_with_storage = Returned st' ∧
          (m_services st').*1 = ["storage"; "storage"]) ∧
  ¬ (∀ build,
       (∃ e st', attach build sample_from_string "storage"
                   (sample_actor "storage@2") sample_with_storage = Thrown e st')
       ↔ "storage" ∈ (m_services sample_with_storage).*1).
Proof.
  assert ("storage" ∈ (m_services sample_with_storage).*1) as Hattached.
  { vm_compute. apply list_elem_of_here. }
  split; [exact Hattached|]. split; [reflexivity|]. split.
  - eexists. split; vm_compute; reflexivity.
  - intros Hclaim. destruct (Hclaim checked) as [_ Hraise].
    destruct (Hraise Hattached) as (e & st' & Hthrown). discriminate Hthrown.
Qed.

(** ** The used weights of a refreshed group *)

(** C3 fails on this run.  "storage" is attached locally, then the group
    "storages", which lists it with weight 1, is refreshed from the
    storage: the used weight of "storage" stays 0 and the sum 0 although
    the service is in the local catalog, and [resolve] of the group is
    not available.  Loading the group first and attaching afterwards marks
    the service: used weight 1, sum 1, and the group resolves. *)
Lemma refresh_after_attach_leaves_service_unused :
  let refreshed := after (refresh_event sample_storage "storages") sample_with_storage in
  let attached_last :=
    after (attach_event checked sample_from_string "storage"
             (sample_actor "storage@node-b"))
      (after (refresh_event sample_storage "storages") sample_locator) in
  "storage" ∈ (m_services refreshed).*1 ∧
  groups_index (router_groups (m_router refreshed)) !! "storages"
    = Some {| group_services := ["storage"]; group_weights := [1%Z];
              group_used_weights := [0%Z]; group_sum := 0 |} ∧
  resolve 0 "storages" refreshed
    = inl (error_t "the specified service is not available") ∧
  (m_services attached_last).*1 = ["storage"] ∧
  groups_index (router_groups (m_router attached_last)) !! "storages"
    = Some {| group_services := ["storage"]; group_weights := [1%Z];
              group_used_weights := [1%Z]; group_sum := 1 |} ∧
  resolve 0 "storages" attached_last = inr "storage@node-b".
Proof.
  intros refreshed attached_last. split.
  { vm_compute. apply list_elem_of_here. }
  repeat split; vm_compute; reflexivity.
Qed.

(** * More of the facade: construction, detach, disposal *)

Section port_range.
Context {pool : Type} `{!PortPool pool}.

Lemma wrap_uint16_pred_sub (max min : Z) :
  ((wrap_uint16 (max - 1) - min) mod 65536 = (max - 1 - min) mod 65536)%Z.
Proof. unfold wrap_uint16. by rewrite Zminus_mod_idemp_l. Qed.

(** The loop pushes the ports from [min] upwards, wrapping at 2^16, in
    descending order; [n] is the distance from [min] up to [max]. *)
Lemma push_ports_run (n : nat) : ∀ (fuel : nat) (min max : Z) (ports : pool),
  (0 ≤ min < 65536)%Z → (0 ≤ max < 65536)%Z →
  ((max - min) mod 65536 = Z.of_nat n)%Z → (n ≤ fuel)%nat →
  push_ports fuel min max ports
    = Some (foldr pool_push ports (wrap_uint16 <$> seqZ min (Z.of_nat n))).
Proof.
  induction n as [|n IH]; intros fuel min max ports Hmin Hmax Hdist Hfuel.
  - assert (min = max) as ->.
    { revert Hdist. Z.div_mod_to_equations. lia. }
    destruct fuel; simpl; by rewrite bool_decide_eq_true_2.
  - assert (min ≠ max) as Hne.
    { intros ->. rewrite Z.sub_diag, Z.mod_0_l in Hdist by lia. lia. }
    destruct fuel as [|fuel]; [lia|].
    simpl. rewrite bool_decide_eq_false_2 by done.
    assert ((wrap_uint16 (max - 1) - min) mod 65536 = Z.of_nat n)%Z as Hdist'.
    { rewrite wrap_uint16_pred_sub. revert Hdist. Z.div_mod_to_equations. lia. }
    rewrite (IH fuel min (wrap_uint16 (max - 1))); [|done| |done|lia].
    + f_equal.
      replace (Z.of_nat (S n)) with (Z.of_nat n + 1)%Z by lia.
      rewrite seqZ_app by lia. rewrite fmap_app, foldr_app. simpl.
      do 2 f_equal. unfold wrap_uint16.
      revert Hdist. Z.div_mod_to_equations. lia.
    + unfold wrap_uint16. Z.div_mod_to_equations. lia.
Qed.

(** X1.  For a range [min <= max] of [uint16_t] ports, the loop of the
    constructor ends and pushes max-1, max-2, ..., min: the pool receives
    every port p with min <= p < max once, and no other; [max] itself is
    not part of the pool.  An empty range pushes nothing. *)
Theorem push_ports_ordered_range (min max : Z) (ports : pool) :
  (0 ≤ min)%Z → (min ≤ max)%Z → (max < 65536)%Z →
  push_ports (Z.to_nat 65535) min max ports
    = Some (foldr pool_push ports (seqZ min (max - min))) ∧
  NoDup (seqZ min (max - min)) ∧
  (∀ p, p ∈ seqZ min (max - min) ↔ (min ≤ p < max)%Z) ∧
  (min = max → push_ports (Z.to_nat 65535) min max ports = Some ports).
Proof.
  intros Hmin Hle Hmax.
  assert (push_ports (Z.to_nat 65535) min max ports
            = Some (foldr pool_push ports (seqZ min (max - min)))) as Hrun.
  { rewrite (push_ports_run (Z.to_nat (max - min))); [|lia|lia| |lia].
    - rewrite Z2Nat.id by lia. do 2 f_equal.
      apply list_eq. intros i. rewrite list_lookup_fmap.
      destruct (seqZ min (max - min) !! i) as [p|] eqn:Hp; [|done].
      simpl. f_equal. apply lookup_seqZ in Hp as [-> ?].
      unfold wrap_uint16. apply Z.mod_small. lia.
    - rewrite Z2Nat.id by lia. apply Z.mod_small. lia. }
  split; [exact Hrun|]. split; [apply NoDup_seqZ|]. split.
  - intros p. rewrite elem_of_seqZ. lia.
  - intros ->. rewrite Hrun, Z.sub_diag. done.
Qed.

(** X2.  For a reversed range, [max < min], the loop does not stop at
    once: [--max] wraps below 0 to 65535 and the loop goes on until it meets
    [min].  The pool receives the ports from [min] up to 65535 and from 0
    up to max-1, that is 65536 - (min - max) ports. *)
Theorem push_ports_reversed_range_wraps (min max : Z) (ports : pool) :
  (0 ≤ max)%Z → (max < min)%Z → (min < 65536)%Z →
  push_ports (Z.to_nat 65535) min max ports
    = Some (foldr pool_push ports (seqZ min (65536 - min) ++ seqZ 0 max)) ∧
  length (seqZ min (65536 - min) ++ seqZ 0 max)
    = Z.to_nat (65536 - (min - max)).
Proof.
  intros Hmax Hlt Hmin. split.
  - rewrite (push_ports_run (Z.to_nat (65536 - (min - max))));
      [|lia|lia| |lia].
    + rewrite Z2Nat.id by lia. do 2 f_equal.
      replace (65536 - (min - max))%Z with ((65536 - min) + max)%Z by lia.
      rewrite seqZ_app by lia. rewrite fmap_app. f_equal.
      * apply list_eq. intros i. rewrite list_lookup_fmap.
        destruct (seqZ min (65536 - min) !! i) as [p|] eqn:Hp; [|done].
        simpl. f_equal. apply lookup_seqZ in Hp as [-> ?].
        unfold wrap_uint16. apply Z.mod_small. lia.
      * replace (min + (65536 - min))%Z with 65536%Z by lia.
        apply list_eq. intros i. rewrite list_lookup_fmap.
        destruct (decide (Z.of_nat i < max)%Z) as [Hi|Hi].
        -- rewrite !lookup_seqZ_lt by done. simpl. f_equal.
           unfold wrap_uint16. Z.div_mod_to_equations. lia.
        -- rewrite !lookup_seqZ_ge by lia. done.
    + rewrite Z2Nat.id by lia. Z.div_mod_to_equations. lia.
  - rewrite length_app, !length_seqZ. lia.
Qed.

End port_range.

Section lifecycle_properties.
Context {descriptor : Type} `{!EqDecision descriptor}.
Context {pool : Type} `{!PortPool pool}.
Implicit Types (st : locator_t descriptor pool) (name : string).
Implicit Types (services : list (string * actor_t descriptor)).

(** *** The constructor *)

Lemma push_ports_total (min max : Z) (ports : pool) :
  (0 ≤ min < 65536)%Z → (0 ≤ max < 65536)%Z →
  is_Some (push_ports (Z.to_nat 65535) min max ports).
Proof.
  intros Hmin Hmax.
  rewrite (push_ports_run (Z.to_nat ((max - min) mod 65536)));
    [by eexists|done|done| |].
  - rewrite Z2Nat.id; [done|]. Z.div_mod_to_equations. lia.
  - apply Z2Nat.inj_le; [|lia|]; Z.div_mod_to_equations; lia.
Qed.

Lemma add_groups_remote_catalog (to_map : string → exception + gmap string Z)
    (groups : list string) (r r' : router_t descriptor) :
  add_groups to_map groups r = inr r' →
  router_inverted r' = router_inverted r ∧ router_services r' = router_services r.
Proof.
  revert r. induction groups as [|name rest IH]; intros r; simpl.
  - by intros [= ->].
  - destruct (to_map name) as [e|group]; [done|].
    intros Hrest. by destruct (IH _ Hrest) as [-> ->].
Qed.

Lemma add_groups_failure (to_map : string → exception + gmap string Z)
    (groups : list string) (r : router_t descriptor) e :
  add_groups to_map groups r = inl e ↔
  ∃ loaded name rest, groups = loaded ++ name :: rest ∧ to_map name = inl e ∧
    Forall (λ g, ∃ group, to_map g = inr group) loaded.
Proof.
  revert r. induction groups as [|name rest IH]; intros r; simpl.
  - split; [done|]. intros (loaded & ? & ? & Heq & _). by destruct loaded.
  - destruct (to_map name) as [e'|group] eqn:Hread.
    + split.
      * intros [= ->]. exists [], name, rest. by repeat split.
      * intros ([|g loaded] & name' & rest' & Heq & Hfail & Hloaded);
          simplify_eq/=; [congruence|].
        apply Forall_cons in Hloaded as [[group Hgroup] _]. congruence.
    + rewrite IH. split.
      * intros (loaded & name' & rest' & -> & Hfail & Hloaded).
        exists (name :: loaded), name', rest'. repeat split; [done|].
        apply Forall_cons. split; [by exists group | done].
      * intros ([|g loaded] & name' & rest' & Heq & Hfail & Hloaded);
          simplify_eq/=; [congruence|].
        apply Forall_cons in Hloaded as [_ Hloaded].
        by exists loaded, name', rest'.
Qed.

(** X3.  The constructor always yields a locator, and that locator has no
    service, no peer, no gateway, no feed and nothing posted.  The groups
    are loaded all or none: when listing the groups or reading any one
    of them throws, the router is a fresh one, without the groups read
    before the failure, and the failure is logged; nothing is thrown to the
    caller. *)
Theorem construct_all_groups_or_none (context : context_t)
    (find : exception + list string)
    (to_map : string → exception + gmap string Z) (fresh : pool) :
  ∃ st, construct context find to_map fresh = Some st ∧
    m_remotes st = ∅ ∧ m_reactor st = [] ∧
    m_services st = [] ∧ m_gateway st = None ∧
    m_synchronizer st = None ∧ m_context st = context ∧
    (network_ports context = None → m_ports st = fresh) ∧
    (∀ groups, find = inr groups →
       match add_groups to_map groups router_empty with
       | inr r => m_router st = r
       | inl e =>
           m_router st = router_empty ∧
           (log_info, "unable to read groups from storage: %s",
            [arg_s (exception_what e)]) ∈ m_log st
       end) ∧
    (∀ e, find = inl e →
       m_router st = router_empty ∧
       (log_info, "unable to read groups from storage: %s",
        [arg_s (exception_what e)]) ∈ m_log st).
Proof.
  unfold construct.
  assert (∃ router loading, load_groups find to_map = (router, loading) ∧
            router_inverted router = ∅ ∧
            (∀ groups, find = inr groups →
               match add_groups to_map groups router_empty with
               | inr r => router = r
               | inl e =>
                   router = router_empty ∧
                   (log_info, "unable to read groups from storage: %s",
                    [arg_s (exception_what e)]) ∈ loading
               end) ∧
            (∀ e, find = inl e →
               router = router_empty ∧
               (log_info, "unable to read groups from storage: %s",
                [arg_s (exception_what e)]) ∈ loading))
    as (router & loading & -> & Hinv & Hgroups & Hfind).
  { unfold load_groups. destruct find as [e|[|name rest]].
    - eexists _, _. split; [done|]. split; [done|]. split; [done|].
      intros ? [= <-]. split; [done | apply list_elem_of_here].
    - eexists _, _. split; [done|]. split; [done|]. split; [|done].
      by intros ? [= <-].
    - destruct (add_groups to_map (name :: rest) router_empty) as [e|r] eqn:Hadd.
      + eexists _, _. split; [done|]. split; [done|]. split; [|done].
        intros ? [= <-]. rewrite Hadd. split; [done | apply list_elem_of_here].
      + eexists _, _. split; [done|].
        apply add_groups_remote_catalog in Hadd as Hcat. destruct Hcat as [-> _].
        split; [done|]. split; [|done]. intros ? [= <-]. by rewrite Hadd. }
  destruct (network_ports context) as [[lower upper]|] eqn:Hports.
  - destruct (push_ports_total (wrap_uint16 lower) (wrap_uint16 upper) fresh)
      as [ports ->]; [unfold wrap_uint16; Z.div_mod_to_equations; lia..|].
    eexists. split; [done|]. simpl.
    do 7 (split; [done|]). split.
    + intros groups Hfound. specialize (Hgroups groups Hfound).
      destruct (add_groups _ _ _); [|done]. destruct Hgroups as [-> Hlog].
      split; [done|]. apply list_elem_of_further, elem_of_app. by left.
    + intros e Hfailed. destruct (Hfind e Hfailed) as [-> Hlog].
      split; [done|]. apply list_elem_of_further, elem_of_app. by left.
  - eexists. split; [done|]. simpl.
    do 7 (split; [done|]). split.
    + intros groups Hfound. specialize (Hgroups groups Hfound).
      destruct (add_groups _ _ _); [|done]. destruct Hgroups as [-> Hlog].
      split; [done|]. by apply list_elem_of_further.
    + intros e Hfailed. destruct (Hfind e Hfailed) as [-> Hlog].
      split; [done|]. by apply list_elem_of_further.
Qed.

(** *** The destructor *)

Lemma terminate_back_run (fuel : nat) : ∀ services (terminated : list string),
  (length services ≤ fuel)%nat →
  terminate_back fuel services terminated
    = ([], terminated ++ rev services.*1).
Proof.
  induction fuel as [|fuel IH]; intros services terminated Hfuel.
  - destruct services; [|simpl in Hfuel; lia]. simpl. by rewrite app_nil_r.
  - destruct services as [|s services _] using rev_ind.
    { simpl. by rewrite app_nil_r. }
    simpl. rewrite last_snoc, removelast_last.
    rewrite length_app in Hfuel. simpl in Hfuel.
    rewrite IH by lia.
    by rewrite fmap_app, rev_app_distr, <- app_assoc.
Qed.

(** X4.  The destructor terminates every service that is still attached,
    each once, in the reverse of the order they were attached in, and
    leaves the catalog empty; it logs one warning when there was a service
    to dispose of and nothing otherwise. *)
Theorem destroy_terminates_in_reverse st :
  (destroy st).1 = rev (m_services st).*1 ∧
  m_services (destroy st).2 = [] ∧
  m_log (destroy st).2 =
    m_log st ++
      match m_services st with
      | [] => []
      | [_] => [(log_warning, "disposing of %llu orphan %s",
                 [arg_d 1; arg_s "service"])]
      | _ => [(log_warning, "disposing of %llu orphan %s",
               [arg_d (Z.of_nat (length (m_services st))); arg_s "services"])]
      end ∧
  m_router (destroy st).2 = m_router st ∧ m_ports (destroy st).2 = m_ports st.
Proof.
  unfold destroy. destruct (m_services st) as [|s services] eqn:Hservices.
  { simpl. rewrite Hservices, app_nil_r. done. }
  change (m_services (log _ _ _ st)) with (m_services st).
  rewrite Hservices, terminate_back_run by done. simpl.
  split; [done|]. split; [done|]. split; [|done].
  destruct services as [|s' services]; [done|].
  by rewrite bool_decide_eq_false_2.
Qed.

(** *** detach *)

(** The entry [std::find_if] stops at splits the catalog: no entry before
    it has the name. *)
Lemma list_find_split name services i found :
  list_find (λ service, name = service.1) services = Some (i, found) →
  ∃ before after,
    services = before ++ (name, found.2) :: after ∧ (name ∉ before.*1) ∧
    delete i services = before ++ after ∧ length before = i.
Proof.
  intros (Hlookup & Hname & Hfirst)%list_find_Some.
  exists (take i services), (drop (S i) services).
  destruct found as [n service]. simpl in Hname. subst n. simpl.
  split; [by rewrite take_drop_middle|].
  split; [|split; [apply delete_take_drop|]].
  - intros ([n a] & Heq & Hin)%list_elem_of_fmap. simpl in Heq. subst n.
    apply elem_of_take in Hin as (j & Hj & Hlt).
    by apply (Hfirst j (name, a) Hj Hlt).
  - apply length_take_le. apply lookup_lt_Some in Hlookup. lia.
Qed.

(** X5.  [detach] of a name that is not attached raises no error and does
    not return: a checked build stops at the assertion, an [NDEBUG] build
    dereferences the end of the catalog. *)
Theorem detach_unknown_name name st :
  name ∉ (m_services st).*1 →
  detach checked name st = Aborted ∧ detach NDEBUG name st = Undefined.
Proof.
  intros Hunknown. unfold detach.
  destruct (list_find _ (m_services st)) as [[i found]|] eqn:Hfind; [|done].
  destruct (list_find_split _ _ _ _ Hfind) as (before & after & Heq & _).
  destruct Hunknown. rewrite Heq, fmap_app, elem_of_app. right.
  apply list_elem_of_here.
Qed.

(** What a [detach] that returns has done. *)
Lemma detach_returned build name st
    (service : actor_t descriptor) st' :
  detach build name st = Returned (service, st') →
  ∃ before after,
    m_services st = before ++ (name, service) :: after ∧
    (name ∉ before.*1) ∧
    m_services st' = before ++ after ∧
    m_router st' = remove_local name (m_router st) ∧
    m_synchronizer st' = synchronizer_update (dump st') <$> m_synchronizer st ∧
    m_ports st' =
      match network_ports (m_context st) with
      | Some _ => pool_push (front_port service) (m_ports st)
      | None => m_ports st
      end ∧
    m_remotes st' = m_remotes st ∧ m_gateway st' = m_gateway st ∧
    m_reactor st' = m_reactor st ∧ m_context st' = m_context st.
Proof.
  unfold detach.
  destruct (list_find _ (m_services st)) as [[i found]|] eqn:Hfind;
    [|by destruct build].
  destruct (list_find_split _ _ _ _ Hfind) as (before & after & Heq & Hfirst & Hdel & _).
  intros Hret. exists before, after.
  destruct (location found.2) as [|e endpoints] eqn:Hloc,
           (network_ports (m_context st)) as [range|] eqn:Hports;
    try done; simplify_eq/=; rewrite ?Hports;
    destruct (m_synchronizer st) as [s|] eqn:Hsync; simplify_eq/=;
    rewrite ?Hdel, ?Hsync; unfold dump; simpl; done.
Qed.

(** X6.  When [detach] returns, it has removed the first entry of the
    catalog with that name and no other, keeping the order of the rest,
    and returns that entry's actor; it has called [remove_local] on the
    router and, when the feed is connected, sent it the snapshot of the
    catalog that is left.  The port of the actor goes back to the pool
    exactly when a pool is configured.  Peers, gateway and posted actions
    are untouched. *)
Theorem detach_removes_first_entry build name st
    (service : actor_t descriptor) st' :
  detach build name st = Returned (service, st') →
  ∃ before after,
    m_services st = before ++ (name, service) :: after ∧
    (name ∉ before.*1) ∧
    m_services st' = before ++ after ∧
    m_router st' = remove_local name (m_router st) ∧
    m_synchronizer st' = synchronizer_update (dump st') <$> m_synchronizer st ∧
    m_ports st' =
      match network_ports (m_context st) with
      | Some _ => pool_push (front_port service) (m_ports st)
      | None => m_ports st
      end ∧
    m_remotes st' = m_remotes st ∧ m_gateway st' = m_gateway st ∧
    m_reactor st' = m_reactor st ∧ m_context st' = m_context st.
Proof.
  unfold detach.
  destruct (list_find _ (m_services st)) as [[i found]|] eqn:Hfind;
    [|by destruct build].
  destruct (list_find_split _ _ _ _ Hfind) as (before & after & Heq & Hfirst & Hdel & _).
  intros Hret. exists before, after.
  destruct (location found.2) as [|e endpoints] eqn:Hloc,
           (network_ports (m_context st)) as [range|] eqn:Hports;
    try done; simplify_eq/=; rewrite ?Hports;
    destruct (m_synchronizer st) as [s|] eqn:Hsync; simplify_eq/=;
    rewrite ?Hdel, ?Hsync; unfold dump; simpl; done.
Qed.

(** X7.  In a checked build the names of the catalog stay distinct: an
    [attach] that returns and a [detach] that returns both keep them
    distinct, and after the [detach] the name is no longer attached. *)
Theorem catalog_names_stay_distinct build
    (from_string : string → exception + string) name
    (service : actor_t descriptor) st :
  NoDup (m_services st).*1 →
  (∀ st', attach checked from_string name service st = Returned st' →
     NoDup (m_services st').*1) ∧
  (∀ detached st', detach build name st = Returned (detached, st') →
     NoDup (m_services st').*1 ∧ name ∉ (m_services st').*1).
Proof.
  intros Hdistinct. split.
  - intros st' Hret.
    assert (name ∉ (m_services st).*1) as Hfresh.
    { intros Hin%find_service_is_Some. unfold attach in Hret.
      destruct Hin as [found Hfound]. by rewrite Hfound in Hret. }
    destruct (attach_cases checked from_string name service st (λ _, Hfresh))
      as [[_ Hthrow] | (_ & port & st1 & _ & Hcase)]; [congruence|].
    destruct (from_string _); [congruence|].
    destruct (actor_run _ _) as [e|running]; [congruence|].
    destruct Hcase as (st'' & Hret' & Hservices & _).
    rewrite Hret in Hret'. injection Hret' as <-.
    rewrite Hservices, fmap_app. apply NoDup_app. split; [done|]. split.
    + intros n Hn Hlast. apply list_elem_of_singleton in Hlast. by subst.
    + apply NoDup_singleton.
  - intros detached st' Hret.
    destruct (detach_returned _ _ _ _ _ Hret)
      as (before & after & Heq & _ & -> & _).
    rewrite Heq, fmap_app, fmap_cons in Hdistinct. simpl in Hdistinct.
    apply NoDup_app in Hdistinct as (Hbefore & Hdisjoint & Hafter).
    apply NoDup_cons in Hafter as [Hname Hafter].
    rewrite fmap_app. split.
    + apply NoDup_app. split; [done|]. split; [|done].
      intros n Hn Hin. apply (Hdisjoint n Hn). by apply list_elem_of_further.
    + rewrite elem_of_app. intros [Hin|Hin]; [|done].
      apply (Hdisjoint name Hin). apply list_elem_of_here.
Qed.

Lemma first_entry_unique name services1 services2
    (a1 a2 : actor_t descriptor) after1 after2 :
  services1 ++ (name, a1) :: after1 = services2 ++ (name, a2) :: after2 →
  name ∉ services1.*1 → name ∉ services2.*1 →
  services1 = services2 ∧ a1 = a2 ∧ after1 = after2.
Proof.
  revert services2.
  induction services1 as [|s1 services1 IH]; intros [|s2 services2] Heq H1 H2;
    simplify_eq/=.
  - done.
  - destruct H2. apply list_elem_of_here.
  - destruct H1. apply list_elem_of_here.
  - destruct (IH services2) as (-> & -> & ->); [done| |  |done].
    + intros Hin. apply H1. by apply list_elem_of_further.
    + intros Hin. apply H2. by apply list_elem_of_further.
Qed.

Lemma attach_keeps_context build (from_string : string → exception + string)
    name (service : actor_t descriptor) st st' :
  attach build from_string name service st = Returned st' →
  m_context st' = m_context st.
Proof.
  unfold attach, allocate_port.
  destruct build, (find_service name (m_services st)); try done;
    destruct (network_ports (m_context st)); try destruct (pool_empty _);
    try done; simpl;
    destruct (from_string _); try done;
    destruct (actor_run _ _); try done;
    destruct (m_synchronizer st); intros; by simplify_eq.
Qed.

(** X8.  Attach, then detach.  For a name that is not attached and an actor
    that binds the endpoints it is given, an [attach] that returns can be
    undone: [detach] returns the actor that was bound, the catalog is the
    one before the [attach], and with a configured pool the port pushed
    back is the port that was popped. *)
Theorem attach_then_detach build (from_string : string → exception + string)
    name (service : actor_t descriptor) st st1 :
  name ∉ (m_services st).*1 →
  (∀ endpoints, actor_bind service endpoints = inr endpoints) →
  attach build from_string name service st = Returned st1 →
  ∃ running st2,
    detach build name st1 = Returned (running, st2) ∧
    metadata running = metadata service ∧
    m_services st2 = m_services st ∧
    m_ports st2 =
      match network_ports (m_context st) with
      | Some _ => pool_push (pool_top (m_ports st)) (pool_pop (m_ports st))
      | None => m_ports st
      end.
Proof.
  intros Hfresh Hbinds Hret.
  destruct (attach_cases build from_string name service st (λ _, Hfresh))
    as [[_ Hthrow] | (Hex & port & st1' & Halloc & Hcase)]; [congruence|].
  destruct (from_string _) as [e|address]; [congruence|].
  unfold actor_run in Hcase. rewrite Hbinds in Hcase.
  destruct Hcase as (st'' & Hret' & Hservices & _ & _ & Hports).
  rewrite Hret in Hret'. injection Hret' as <-.
  pose proof (attach_keeps_context _ _ _ _ _ _ Hret) as Hctx.
  set (running := {| metadata := metadata service;
                     location := [(address, port)];
                     actor_bind := actor_bind service |}) in *.
  assert (list_find (λ s : string * actor_t descriptor, name = s.1) (m_services st1)
          = Some (length (m_services st), (name, running))) as Hfind.
  { rewrite Hservices. apply list_find_Some. split; [|split; [done|]].
    - by rewrite list_lookup_middle.
    - intros j [n a] Hj Hlt Hn. simpl in Hn. subst n.
      rewrite lookup_app_l in Hj by done.
      apply Hfresh, list_elem_of_fmap. exists (name, a).
      split; [done|]. by eapply list_elem_of_lookup_2. }
  assert (∃ st2, detach build name st1 = Returned (running, st2)) as [st2 Hdetach].
  { unfold detach. rewrite Hfind. simpl. by eexists. }
  exists running, st2. split; [done|]. split; [done|].
  destruct (detach_returned _ _ _ _ _ Hdetach)
    as (before & after & Heq & Hfirst & Hrest & _ & _ & Hpool & _).
  rewrite Hservices in Heq.
  destruct (first_entry_unique _ _ _ _ _ _ _ Heq Hfresh Hfirst) as (<- & _ & <-).
  split; [by rewrite Hrest, app_nil_r|].
  rewrite Hpool, Hctx, Hports.
  unfold allocate_port in Halloc.
  destruct (network_ports (m_context st)) as [range|]; [|by simplify_eq].
  destruct (pool_empty (m_ports st)); [done|]. by simplify_eq.
Qed.

(** *** dump and resolve over the catalog *)

Lemma list_find_head name services :
  find_service name services = head (filter (λ s, name = s.1) services).
Proof.
  unfold find_service. induction services as [|s services IH]; [done|].
  rewrite filter_cons. simpl. case_decide; [done|].
  rewrite <- IH. by destruct (list_find _ services) as [[??]|].
Qed.

Lemma foldl_insert_last services (m : gmap string descriptor) name :
  foldl (λ result service, <[service.1 := metadata service.2]> result) m services
    !! name
  = match last (filter (λ s, name = s.1) services) with
    | Some s => Some (metadata s.2)
    | None => m !! name
    end.
Proof.
  revert m. induction services as [|s services IH]; intros m; [done|].
  simpl foldl. rewrite IH, filter_cons. case_decide as Hname.
  - rewrite last_cons.
    destruct (last (filter _ services)); [done|].
    by rewrite Hname, lookup_insert_eq.
  - destruct (last (filter _ services)); [done|].
    rewrite lookup_insert_ne; [done | congruence].
Qed.

Lemma distinct_names_one_match name services :
  NoDup services.*1 →
  last (filter (λ s, name = s.1) services)
    = head (filter (λ s, name = s.1) services).
Proof.
  induction services as [|s services IH]; [done|].
  rewrite fmap_cons. intros [Hfresh Hdistinct]%NoDup_cons.
  rewrite filter_cons. case_decide as Hname; [|by apply IH].
  assert (filter (λ s0 : string * actor_t descriptor, name = s0.1) services = [])
    as ->; [|done].
  destruct (filter _ services) as [|other rest] eqn:Hfilter; [done|].
  assert (other ∈ filter (λ s0 : string * actor_t descriptor, name = s0.1) services)
    as [Hother Hin]%list_elem_of_filter
    by (rewrite Hfilter; apply list_elem_of_here).
  destruct Hfresh. rewrite <- Hname, Hother. apply list_elem_of_fmap. by exists other.
Qed.

(** X9.  [dump] publishes, for each attached name, the metadata of the
    last entry of the catalog with that name, while [std::find_if], which
    [resolve] and [detach] use, stops at the first.  With distinct names
    the two agree: the snapshot lists exactly the attached names, each with
    the metadata of the actor that [resolve] would serve. *)
Theorem dump_publishes_the_catalog st :
  (∀ name, dump st !! name
           = (λ s, metadata s.2) <$> last (filter (λ s, name = s.1) (m_services st))) ∧
  (∀ name, find_service name (m_services st)
           = head (filter (λ s, name = s.1) (m_services st))) ∧
  (∀ name, name ∈ dom (dump st) ↔ name ∈ (m_services st).*1) ∧
  (NoDup (m_services st).*1 →
   ∀ name, dump st !! name
           = (λ s, metadata s.2) <$> find_service name (m_services st)).
Proof.
  assert (∀ name, dump st !! name
            = (λ s, metadata s.2) <$> last (filter (λ s, name = s.1) (m_services st)))
    as Hlast.
  { intros name. unfold dump. rewrite foldl_insert_last.
    by destruct (last _). }
  split; [exact Hlast|]. split; [intros; apply list_find_head|]. split.
  - intros name. unfold synchronize_result_type.
    rewrite elem_of_dom, Hlast, fmap_is_Some.
    rewrite <- find_service_is_Some, list_find_head.
    destruct (filter _ (m_services st)) as [|s rest] using rev_ind.
    + split; intros [? ?]; done.
    + rewrite last_snoc. split; intros _; [|by eexists].
      destruct rest; by eexists.
  - intros Hdistinct name.
    by rewrite Hlast, list_find_head, distinct_names_one_match.
Qed.

Lemma attach_returned_fresh build (from_string : string → exception + string)
    name (service : actor_t descriptor) st st' :
  attach build from_string name service st = Returned st' →
  build = checked → name ∉ (m_services st).*1.
Proof.
  intros Hret -> Hin%find_service_is_Some. unfold attach in Hret.
  destruct Hin as [found Hfound]. by rewrite Hfound in Hret.
Qed.

Lemma attach_returned build (from_string : string → exception + string)
    name (service : actor_t descriptor) st st' :
  attach build from_string name service st = Returned st' →
  ∃ running, metadata running = metadata service ∧
    m_services st' = m_services st ++ [(name, running)] ∧
    m_synchronizer st' = synchronizer_update (dump st') <$> m_synchronizer st.
Proof.
  intros Hret.
  destruct (attach_cases build from_string name service st
              (attach_returned_fresh _ _ _ _ _ _ Hret))
    as [[_ Hthrow] | (_ & port & st1 & _ & Hcase)]; [congruence|].
  destruct (from_string _); [congruence|].
  destruct (actor_run _ _) as [e|running] eqn:Hrun; [congruence|].
  destruct Hcase as (st'' & Hret' & Hservices & _ & Hsync & _).
  rewrite Hret in Hret'. injection Hret' as <-.
  apply actor_run_inr in Hrun as [Hmeta _]. by exists running.
Qed.

(** X10.  An [attach] that returns adds one entry to what [dump]
    publishes: the snapshot afterwards is the snapshot before with the
    name bound to the actor's metadata, also when the name was attached
    already, and that snapshot is what a connected feed is updated
    with. *)
Theorem attach_extends_dump build (from_string : string → exception + string)
    name (service : actor_t descriptor) st st' :
  attach build from_string name service st = Returned st' →
  dump st' = <[name := metadata service]> (dump st) ∧
  m_synchronizer st'
    = synchronizer_update (<[name := metadata service]> (dump st))
        <$> m_synchronizer st.
Proof.
  intros Hret.
  destruct (attach_returned _ _ _ _ _ _ Hret) as (running & Hmeta & Hservices & Hsync).
  assert (dump st' = <[name := metadata service]> (dump st)) as Hdump.
  { unfold dump. rewrite Hservices, foldl_app. simpl. by rewrite Hmeta. }
  split; [exact Hdump|]. by rewrite Hsync, Hdump.
Qed.

(** X11.  Attach, then resolve.  After an [attach] of a name that was not
    attached, [resolve] of a name the router selects as itself answers with
    the metadata of the actor just attached, whatever the gateway and the
    remote catalog hold. *)
Theorem attach_then_resolve build (from_string : string → exception + string)
    name (service : actor_t descriptor) st st' (r : Z) :
  name ∉ (m_services st).*1 →
  attach build from_string name service st = Returned st' →
  select_service r name (m_router st') = name →
  resolve r name st' = inr (metadata service).
Proof.
  intros Hfresh Hret Hselect.
  destruct (attach_returned _ _ _ _ _ _ Hret) as (running & Hmeta & Hservices & _).
  unfold resolve, resolve_route. rewrite Hselect, list_find_head, Hservices.
  rewrite filter_app.
  assert (filter (λ s : string * actor_t descriptor, name = s.1) (m_services st) = [])
    as ->.
  { apply find_service_None in Hfresh. rewrite list_find_head in Hfresh.
    by destruct (filter _ (m_services st)). }
  rewrite filter_cons. simpl. rewrite decide_True by done. simpl. by rewrite Hmeta.
Qed.

(** X12.  Detach, then resolve.  With distinct names and no gateway, after
    a [detach] that returns, [resolve] of the detached name (when the
    router selects it as itself) fails with "the specified service is not
    available". *)
Theorem detach_then_resolve build name st (detached : actor_t descriptor) st'
    (r : Z) :
  NoDup (m_services st).*1 →
  m_gateway st = None →
  detach build name st = Returned (detached, st') →
  select_service r name (m_router st') = name →
  resolve r name st' = inl (error_t "the specified service is not available").
Proof.
  intros Hdistinct Hgateway Hret Hselect.
  destruct (detach_returned _ _ _ _ _ Hret)
    as (before & after & Heq & Hfirst & Hrest & _ & _ & _ & _ & Hgw & _).
  assert (name ∉ (m_services st').*1) as Hgone.
  { rewrite Heq, fmap_app, fmap_cons in Hdistinct. simpl in Hdistinct.
    apply NoDup_app in Hdistinct as (_ & Hdisjoint & Hafter).
    apply NoDup_cons in Hafter as [Hname _].
    rewrite Hrest, fmap_app, elem_of_app. intros [Hin|Hin]; [|done].
    apply (Hdisjoint name Hin). apply list_elem_of_here. }
  apply find_service_None in Hgone.
  unfold resolve, resolve_route. by rewrite Hselect, Hgone, Hgw, Hgateway.
Qed.

(** *** disconnect *)


End lifecycle_properties.

(** * More of the peers: announces and messages *)

Section announce_properties.
Context {descriptor : Type} `{!EqDecision descriptor}.
Context {pool : Type} `{!PortPool pool}.
Implicit Types (st : locator_t descriptor pool) (key : key_type).

Lemma keeps_all_but_peers_refl st : keeps_all_but_peers st st.
Proof. by repeat split. Qed.

Lemma keeps_all_but_peers_trans st1 st2 st3 :
  keeps_all_but_peers st1 st2 → keeps_all_but_peers st2 st3 →
  keeps_all_but_peers st1 st3.
Proof.
  unfold keeps_all_but_peers. intros H12 H23. destruct_and!.
  repeat split; congruence.
Qed.

Lemma alter_known {A} (f : A → A) (m : gmap key_type A) key known :
  m !! key = Some known → alter f key m = <[key := f known]> m.
Proof.
  intros Hknown. apply map_eq. intros j.
  rewrite lookup_alter, lookup_insert. case_decide; [|done].
  subst. by rewrite Hknown.
Qed.

(** What the loop over the endpoints ends with. *)
Lemma connect_first_result (connect : endpoint → option exception) uuid
    (endpoints : list endpoint) st :
  match connect_first connect uuid endpoints st with
  | Returned (Some connected, st') =>
      ∃ refused rest,
        endpoints = refused ++ connected :: rest ∧
        Forall (refuses connect) refused ∧ connect connected = None ∧
        keeps_all_but_peers st st' ∧ m_remotes st' = m_remotes st ∧
        length (m_log st') = (length (m_log st) + length refused)%nat
  | Returned (None, st') =>
      Forall (refuses connect) endpoints ∧
      keeps_all_but_peers st st' ∧ m_remotes st' = m_remotes st ∧
      length (m_log st') = (length (m_log st) + length endpoints)%nat
  | Thrown e (_, st') =>
      ∃ refused thrower rest,
        endpoints = refused ++ thrower :: rest ∧
        Forall (refuses connect) refused ∧ connect thrower = Some e ∧
        ¬ refuses connect thrower ∧
        keeps_all_but_peers st st' ∧ m_remotes st' = m_remotes st
  | _ => False
  end.
Proof.
  revert st. induction endpoints as [|it rest IH]; intros st; simpl.
  { repeat split; [done|lia]. }
  destruct (connect it) as [e|] eqn:Hit.
  - assert (∀ e', e = e' → (∀ code message, e' ≠ system_error code message) →
              ∃ refused thrower rest0,
                it :: rest = refused ++ thrower :: rest0 ∧
                Forall (refuses connect) refused ∧ connect thrower = Some e' ∧
                ¬ refuses connect thrower ∧
                keeps_all_but_peers st st ∧ m_remotes st = m_remotes st)
      as Hthrows.
    { intros e' <- Hother. exists [], it, rest.
      repeat split; try done.
      intros (code & message & Hsys). rewrite Hit in Hsys.
      injection Hsys as ->. by destruct (Hother code message). }
    destruct e; try (by apply Hthrows).
    specialize (IH (log log_warning
      "unable to connect to node '%s' via endpoint '%s' - [%d] %s"
      [arg_s uuid; arg_endpoint it; arg_d code; arg_s what] st)).
    assert (refuses connect it) as Hrefuses by (by exists code, what).
    destruct (connect_first _ _ _ _) as [[[connected|] st']|e [o st']| |];
      [| | |done..].
    + destruct IH as (refused & rest' & -> & Hrefused & Hconn & Hkeep & Hrem & Hlen).
      exists (it :: refused), rest'.
      split; [done|]. split; [by apply Forall_cons|]. split; [done|].
      split; [exact Hkeep|]. split; [exact Hrem|].
      rewrite Hlen. simpl. rewrite length_app. simpl. lia.
    + destruct IH as (Hrefused & Hkeep & Hrem & Hlen).
      split; [by apply Forall_cons|].
      split; [exact Hkeep|]. split; [exact Hrem|].
      rewrite Hlen. simpl. rewrite length_app. simpl. lia.
    + destruct IH as (refused & thrower & rest' & -> & Hrefused & Hthrow & Hnot
                      & Hkeep & Hrem).
      exists (it :: refused), thrower, rest'.
      split; [done|]. split; [by apply Forall_cons|]. split; [done|].
      split; [done|]. split; [exact Hkeep | exact Hrem].
  - exists [], rest. repeat split; [done..|]. simpl. lia.
Qed.

(** The loop passes over the endpoints that refuse, logging each once. *)
Lemma connect_first_refused (connect : endpoint → option exception) uuid
    (refused tail : list endpoint) st :
  Forall (refuses connect) refused →
  ∃ st1, connect_first connect uuid (refused ++ tail) st
           = connect_first connect uuid tail st1 ∧
         keeps_all_but_peers st st1 ∧ m_remotes st1 = m_remotes st ∧
         length (m_log st1) = (length (m_log st) + length refused)%nat.
Proof.
  intros Hrefused. revert st.
  induction Hrefused as [|it refused (code & message & Hit) _ IH]; intros st.
  { exists st. repeat split; [done..|]. simpl. lia. }
  simpl. rewrite Hit.
  destruct (IH (log log_warning
    "unable to connect to node '%s' via endpoint '%s' - [%d] %s"
    [arg_s uuid; arg_endpoint it; arg_d code; arg_s message] st))
    as (st1 & Hrun & Hkeep & Hrem & Hlen).
  exists st1. split; [exact Hrun|]. split; [exact Hkeep|]. split; [exact Hrem|].
  rewrite Hlen. simpl. rewrite length_app. simpl. lia.
Qed.

(** X14.  The loop over the resolved endpoints connects to the first
    endpoint that accepts: every endpoint before it threw a
    [std::system_error] and was logged once, and no endpoint after it is
    tried.  When every endpoint throws a [std::system_error] the loop ends
    without a channel.  Any other exception leaves the loop at the first
    endpoint that threw it.  The loop always ends in one of these three
    ways, and touches nothing but the log. *)
Theorem connect_first_picks_first_reachable (connect : endpoint → option exception)
    uuid (endpoints : list endpoint) st :
  (∀ refused connected rest,
     endpoints = refused ++ connected :: rest →
     Forall (refuses connect) refused → connect connected = None →
     ∃ st', connect_first connect uuid endpoints st = Returned (Some connected, st') ∧
            keeps_all_but_peers st st' ∧ m_remotes st' = m_remotes st ∧
            length (m_log st') = (length (m_log st) + length refused)%nat) ∧
  (Forall (refuses connect) endpoints →
     ∃ st', connect_first connect uuid endpoints st = Returned (None, st') ∧
            keeps_all_but_peers st st' ∧ m_remotes st' = m_remotes st ∧
            length (m_log st') = (length (m_log st) + length endpoints)%nat) ∧
  (∀ refused thrower rest e,
     endpoints = refused ++ thrower :: rest →
     Forall (refuses connect) refused → connect thrower = Some e →
     ¬ refuses connect thrower →
     ∃ st', connect_first connect uuid endpoints st = Thrown e (None, st') ∧
            keeps_all_but_peers st st' ∧ m_remotes st' = m_remotes st ∧
            length (m_log st') = (length (m_log st) + length refused)%nat) ∧
  match connect_first connect uuid endpoints st with
  | Returned (Some connected, st') =>
      ∃ refused rest,
        endpoints = refused ++ connected :: rest ∧
        Forall (refuses connect) refused ∧ connect connected = None ∧
        length (m_log st') = (length (m_log st) + length refused)%nat
  | Returned (None, st') =>
      Forall (refuses connect) endpoints ∧
      length (m_log st') = (length (m_log st) + length endpoints)%nat
  | Thrown e (_, st') =>
      ∃ refused thrower rest,
        endpoints = refused ++ thrower :: rest ∧
        Forall (refuses connect) refused ∧ connect thrower = Some e ∧
        ¬ refuses connect thrower
  | Aborted | Undefined => False
  end.
Proof.
  split; [|split; [|split]].
  - intros refused connected rest -> Hrefused Haccepts.
    destruct (connect_first_refused connect uuid refused (connected :: rest) st
                Hrefused) as (st1 & -> & Hkeep & Hrem & Hlen).
    exists st1. simpl. by rewrite Haccepts.
  - intros Hrefused.
    destruct (connect_first_refused connect uuid endpoints [] st Hrefused)
      as (st1 & Hrun & Hkeep & Hrem & Hlen).
    rewrite app_nil_r in Hrun. exists st1. by rewrite Hrun.
  - intros refused thrower rest e -> Hrefused Hthrows Hother.
    destruct (connect_first_refused connect uuid refused (thrower :: rest) st
                Hrefused) as (st1 & -> & Hkeep & Hrem & Hlen).
    exists st1. simpl. rewrite Hthrows.
    destruct e; try done.
    destruct Hother. by eexists _, _.
  - pose proof (connect_first_result connect uuid endpoints st) as Hresult.
    destruct (connect_first _ _ _ _) as [[[connected|] st']|e [o st']| |];
      [| | |done..].
    + destruct Hresult as (refused & rest & ? & ? & ? & _ & _ & ?).
      by exists refused, rest.
    + by destruct Hresult as (? & _ & _ & ?).
    + destruct Hresult as (refused & thrower & rest & ? & ? & ? & ? & _).
      by exists refused, thrower, rest.
Qed.

Lemma keeps_all_but_peers_log p format args st :
  keeps_all_but_peers st (log p format args st).
Proof. by repeat split. Qed.

Lemma discover_result (query : string → Z → exception + list endpoint)
    (connect : endpoint → option exception) key st :
  match discover query connect key st with
  | Returned (Some _, st') =>
      ∃ endpoints connected,
        query (key_hostname key) (key_port key) = inr endpoints ∧
        connected ∈ endpoints ∧ connect connected = None ∧
        keeps_all_but_peers st st' ∧
        m_remotes st'
          = <[key := {| channel := (connected, ["synchronize"]);
                        timeout := None |}]> (m_remotes st)
  | Returned (None, st') | Thrown _ (_, st') =>
      keeps_all_but_peers st st' ∧ m_remotes st' = m_remotes st
  | _ => False
  end.
Proof.
  unfold discover.
  destruct (query _ _) as [e|endpoints]; [by destruct e|].
  pose proof (connect_first_result connect (key_uuid key) endpoints
    (log log_info "discovered node '%s' on '%s:%d'"
       [arg_s (key_uuid key); arg_s (key_hostname key); arg_d (key_port key)] st))
    as Hresult.
  destruct (connect_first _ _ _ _) as [[[connected|] st']|? [? st']| |];
    [| | |done..].
  - destruct Hresult as (refused & rest & -> & _ & Hconn & Hkeep & Hrem & _).
    exists (refused ++ connected :: rest), connected.
    split; [done|]. split.
    { rewrite elem_of_app. right. apply list_elem_of_here. }
    split; [done|]. split; [exact Hkeep|]. simpl. by rewrite Hrem.
  - destruct Hresult as (_ & Hkeep & Hrem & _). split; [exact Hkeep | exact Hrem].
  - destruct Hresult as (? & ? & ? & _ & _ & _ & _ & Hkeep & Hrem).
    split; [exact Hkeep | exact Hrem].
Qed.

Lemma announce_result (unpack : string → exception + key_type)
    (query : string → Z → exception + list endpoint)
    (connect : endpoint → option exception)
    (size : Z) (ec : option (Z * string)) (buffers : string) st :
  match on_announce_event unpack query connect size ec buffers st with
  | Returned st' | Thrown _ st' =>
      keeps_all_but_peers st st' ∧
      (m_remotes st' = m_remotes st ∨
       ∃ key, (0 < size)%Z ∧ unpack buffers = inr key ∧
         match m_remotes st !! key with
         | Some known =>
             m_remotes st'
               = <[key := {| channel := channel known; timeout := Some 60%Z |}]>
                   (m_remotes st)
         | None =>
             ∃ endpoints connected,
               query (key_hostname key) (key_port key) = inr endpoints ∧
               connected ∈ endpoints ∧ connect connected = None ∧
               m_remotes st'
                 = <[key := {| channel := (connected, ["synchronize"]);
                               timeout := Some 60%Z |}]> (m_remotes st)
         end)
  | _ => False
  end.
Proof.
  unfold on_announce_event. case_bool_decide as Hsize.
  { destruct ec as [[??]|]; (split; [by repeat split | by left]). }
  destruct (unpack buffers) as [e|key] eqn:Hkey.
  { destruct e; (split; [by repeat split | by left]). }
  destruct (m_remotes st !! key) as [known|] eqn:Hknown.
  - split; [by repeat split|]. right. exists key.
    split; [lia|]. split; [done|]. rewrite Hknown. simpl.
    by rewrite (alter_known _ _ key known Hknown).
  - pose proof (discover_result query connect key st) as Hresult.
    destruct (discover _ _ _ _) as [[[[]|] st']|? [? st']| |]; [| | |done..].
    + destruct Hresult as (endpoints & connected & Hquery & Hin & Hconn & Hkeep & Hrem).
      split.
      { eapply keeps_all_but_peers_trans; [exact Hkeep|]. by repeat split. }
      right. exists key. split; [lia|]. split; [done|]. rewrite Hknown.
      exists endpoints, connected. do 3 (split; [done|]).
      simpl. rewrite Hrem. by rewrite alter_insert_eq.
    + destruct Hresult as [Hkeep Hrem]. split; [exact Hkeep | by left].
    + destruct Hresult as [Hkeep Hrem]. split; [exact Hkeep | by left].
Qed.

(** X15.  An announce never touches the router, the gateway, the catalog,
    the pool, the feed or the reactor's queue, and never aborts.  It
    changes at most the one peer entry of the key it decodes.  For a key
    that is registered, only the heartbeat is armed again for 60 seconds:
    the channel stays and neither the resolver nor [connect] matters.  For
    a key that is not registered, an entry appears only when the resolver
    answered and one of its endpoints connected; a failed read, a
    malformed datagram, a failed resolution and a refused connection all
    leave the registry as it was. *)
Theorem announce_touches_one_peer_entry (unpack : string → exception + key_type)
    (query : string → Z → exception + list endpoint)
    (connect : endpoint → option exception)
    (size : Z) (ec : option (Z * string)) (buffers : string) st :
  on_announce_event unpack query connect size ec buffers st ≠ Aborted ∧
  on_announce_event unpack query connect size ec buffers st ≠ Undefined ∧
  (∀ st', (on_announce_event unpack query connect size ec buffers st = Returned st'
           ∨ ∃ e, on_announce_event unpack query connect size ec buffers st
                    = Thrown e st') →
     keeps_all_but_peers st st' ∧
     (m_remotes st' = m_remotes st ∨
      ∃ key, (0 < size)%Z ∧ unpack buffers = inr key ∧
        match m_remotes st !! key with
        | Some known =>
            m_remotes st'
              = <[key := {| channel := channel known; timeout := Some 60%Z |}]>
                  (m_remotes st)
        | None =>
            ∃ endpoints connected,
              query (key_hostname key) (key_port key) = inr endpoints ∧
              connected ∈ endpoints ∧ connect connected = None ∧
              m_remotes st'
                = <[key := {| channel := (connected, ["synchronize"]);
                              timeout := Some 60%Z |}]> (m_remotes st)
        end)) ∧
  (∀ key known query' connect',
     (0 < size)%Z → unpack buffers = inr key → m_remotes st !! key = Some known →
     on_announce_event unpack query connect size ec buffers st
       = on_announce_event unpack query' connect' size ec buffers st).
Proof.
  pose proof (announce_result unpack query connect size ec buffers st) as Hresult.
  split; [|split; [|split]].
  - intros Heq. by rewrite Heq in Hresult.
  - intros Heq. by rewrite Heq in Hresult.
  - intros st' [Hret | [e Hthrow]];
      [rewrite Hret in Hresult | rewrite Hthrow in Hresult]; exact Hresult.
  - intros key known query' connect' Hsize Hkey Hknown.
    unfold on_announce_event.
    rewrite bool_decide_eq_false_2 by lia. by rewrite Hkey, Hknown.
Qed.

(** Every event keeps the peer entries armed. *)
Lemma armed_dispatch (ev : event descriptor) st st' :
  map_Forall (λ _ remote, armed remote) (m_remotes st) →
  (dispatch ev st = Returned st' ∨ ∃ e, dispatch ev st = Thrown e st') →
  map_Forall (λ _ remote, armed remote) (m_remotes st').
Proof.
  intros Harmed Hstep.
  destruct ev as [unpack query conn size ec buffers | pack write
                 | unpack key message | key ec | key |
                 | build from_string name service | to_map name
                 | build name
                 | federated group from_string sink bound joined gateway
                     announce slot
                 | federated];
    simpl in Hstep.
  - pose proof (announce_result unpack query conn size ec buffers st) as Hresult.
    assert (m_remotes st' = m_remotes st ∨
            ∃ key, (0 < size)%Z ∧ unpack buffers = inr key ∧
              match m_remotes st !! key with
              | Some known =>
                  m_remotes st'
                    = <[key := {| channel := channel known;
                                  timeout := Some 60%Z |}]> (m_remotes st)
              | None =>
                  ∃ endpoints connected,
                    query (key_hostname key) (key_port key) = inr endpoints ∧
                    connected ∈ endpoints ∧ conn connected = None ∧
                    m_remotes st'
                      = <[key := {| channel := (connected, ["synchronize"]);
                                    timeout := Some 60%Z |}]> (m_remotes st)
              end) as [-> | (key & _ & _ & Hentry)]; [|done|].
    { destruct Hstep as [Hret | [e Hthrow]];
        [rewrite Hret in Hresult | rewrite Hthrow in Hresult];
        by destruct Hresult. }
    destruct (m_remotes st !! key) as [known|] eqn:Hknown.
    + rewrite Hentry. apply map_Forall_insert_2; [|done].
      split; [done|]. by destruct (Harmed key known Hknown).
    + destruct Hentry as (endpoints & connected & _ & _ & _ & ->).
      by apply map_Forall_insert_2.
  - destruct Hstep as [[= <-] | [e ?]]; [|done].
    destruct (on_announce_timer_tick pack write st) as (_ & Hsame & _).
    unfold same_state in Hsame. destruct_and!.
    by match goal with H : m_remotes _ = _ |- _ => rewrite H end.
  - pose proof (on_message_frame unpack key message st) as Hframe.
    destruct Hstep as [Hret | [e Hthrow]];
      [rewrite Hret in Hframe | rewrite Hthrow in Hframe; by subst].
    by destruct Hframe as [-> _].
  - destruct Hstep as [Hret | [e Hthrow]].
    + apply on_failure_frame in Hret as [-> _]. by apply map_Forall_delete.
    + unfold on_failure in Hthrow.
      destruct (drop_remote _ _) eqn:Hdrop; simplify_eq.
      by apply drop_remote_not_thrown in Hdrop.
  - destruct Hstep as [Hret | [e Hthrow]].
    + apply on_timeout_frame in Hret as [-> _]. by apply map_Forall_delete.
    + unfold on_timeout in Hthrow.
      destruct (drop_remote _ _) eqn:Hdrop; simplify_eq.
      by apply drop_remote_not_thrown in Hdrop.
  - destruct Hstep as [[= <-] | [e ?]]; [|done].
    intros key remote. rewrite run_posted_lookup.
    case_bool_decide; [done|]. apply Harmed.
  - pose proof (attach_frame build from_string name service st) as Hframe.
    destruct Hstep as [Hret | [e Hthrow]];
      [rewrite Hret in Hframe | rewrite Hthrow in Hframe];
      by destruct Hframe as [_ ->].
  - pose proof (refresh_frame to_map name st) as Hframe.
    destruct Hstep as [Hret | [e Hthrow]];
      [rewrite Hret in Hframe | rewrite Hthrow in Hframe];
      by destruct Hframe as [_ ->].
  - pose proof (detach_frame build name st) as Hframe.
    destruct (detach build name st) as [[actor st1]|e1 [actor st1]| |];
      destruct Hstep as [Hret | [e Hthrow]]; simplify_eq;
      by destruct Hframe as [_ ->].
  - pose proof (connect_frame federated group from_string sink bound joined
                  gateway announce slot st) as Hframe.
    destruct Hstep as [Hret | [e Hthrow]];
      [rewrite Hret in Hframe | rewrite Hthrow in Hframe];
      by destruct Hframe as [_ ->].
  - pose proof (disconnect_frame federated st) as Hframe.
    destruct Hstep as [Hret | [e Hthrow]];
      [rewrite Hret in Hframe | by rewrite Hthrow in Hframe].
    destruct Hframe as (_ & _ & _ & ->).
    destruct federated; [apply map_Forall_empty | done].
Qed.

(** X16.  In every state a locator reaches, each peer entry has its
    heartbeat armed for 60 seconds and exactly one synchronize request
    written on its channel: an entry is armed in the callback that creates
    it, an announce of a registered key arms it again, and nothing else
    writes on a channel or stops a heartbeat; [disconnect] drops the
    entries altogether. *)
Theorem peer_entries_stay_armed st :
  reachable st →
  ∀ key remote, m_remotes st !! key = Some remote →
    timeout remote = Some 60%Z ∧ (channel remote).2 = ["synchronize"].
Proof.
  intros Hreach.
  assert (map_Forall (λ _ remote, armed remote) (m_remotes st)) as Harmed;
    [|exact Harmed].
  induction Hreach as [st (Hrem & _) | st ev st' _ IH _ _ Hstep
                      | st ev e st' _ IH _ _ Hstep].
  - rewrite Hrem. apply map_Forall_empty.
  - eapply armed_dispatch; eauto.
  - eapply armed_dispatch; eauto.
Qed.

(** X17.  [on_message] throws in one case only: a chunk whose payload does
    not decode.  It then throws the decoder's exception and leaves the
    locator exactly as it was: the peer keeps its entry, the router keeps
    the last snapshot of the peer, and nothing is posted.  Error, choke and
    unknown messages never throw. *)
Theorem on_message_throws_only_on_malformed_chunk
    (unpack : string → exception + synchronize_result_type descriptor)
    key (message : message_t) st e st' :
  on_message unpack key message st = Thrown e st' ↔
  ∃ payload, message = rpc_chunk payload ∧ unpack payload = inl e ∧ st' = st.
Proof.
  split.
  - unfold on_message. destruct message.
    + destruct (unpack payload) as [e0|snapshot] eqn:Hdecode.
      * intros [= <- <-]. by exists payload.
      * destruct (update_remote _ _ _) as [diff router].
        by intros ?%gateway_apply_not_thrown.
    + destruct (drop_remote _ _) eqn:Hdrop; intros; simplify_eq.
      by apply drop_remote_not_thrown in Hdrop.
    + destruct (drop_remote _ _) eqn:Hdrop; intros; simplify_eq.
      by apply drop_remote_not_thrown in Hdrop.
    + done.
  - intros (payload & -> & Hdecode & ->). unfold on_message. by rewrite Hdecode.
Qed.

End announce_properties.

(** * A name attached twice *)

Section duplicate_names.
Context {descriptor : Type} `{!EqDecision descriptor}.
Context {pool : Type} `{!PortPool pool}.
Implicit Types (st : locator_t descriptor pool) (name : string).

(** X18.  Under [NDEBUG] a name that is already attached can be attached
    again.  The new entry goes behind the old one: [std::find_if], and so
    [resolve], keeps finding the actor attached first, while the snapshot
    that [dump] publishes to the peers carries the metadata of the actor
    attached last. *)
Theorem attach_twice_serves_first_publishes_last
    (from_string : string → exception + string) name
    (service : actor_t descriptor) st st' :
  name ∈ (m_services st).*1 →
  attach NDEBUG from_string name service st = Returned st' →
  find_service name (m_services st') = find_service name (m_services st) ∧
  is_Some (find_service name (m_services st)) ∧
  dump st' !! name = Some (metadata service) ∧
  length (filter (λ s, name = s.1) (m_services st'))
    = S (length (filter (λ s, name = s.1) (m_services st))).
Proof.
  intros Hattached Hret.
  destruct (attach_returned _ _ _ _ _ _ Hret) as (running & Hmeta & Hservices & _).
  apply find_service_is_Some in Hattached as Hfound.
  rewrite Hservices, filter_app, filter_cons. simpl.
  rewrite decide_True by done.
  split; [|split; [done|split]].
  - rewrite !list_find_head, filter_app, filter_cons. simpl.
    rewrite decide_True by done.
    rewrite list_find_head in Hfound.
    destruct (filter _ (m_services st)); [by destruct Hfound | done].
  - unfold dump. rewrite Hservices, foldl_app. simpl.
    unfold synchronize_result_type. by rewrite lookup_insert_eq, Hmeta.
  - rewrite length_app. simpl. lia.
Qed.

End duplicate_names.

(** * More witnesses *)

Lemma sample_attach_run :
  attach checked sample_from_string "cache" (sample_actor "cache@node-b")
    sample_with_storage = Returned sample_attached.
Proof. vm_compute. reflexivity. Qed.

Lemma sample_cache_fresh : "cache" ∉ (m_services sample_with_storage).*1.
Proof.
  vm_compute. intros Hin. apply list_elem_of_singleton in Hin. discriminate.
Qed.

Lemma sample_attached_distinct : NoDup (m_services sample_attached).*1.
Proof.
  vm_compute. apply NoDup_cons. split.
  - intros Hin. apply list_elem_of_singleton in Hin. discriminate.
  - apply NoDup_singleton.
Qed.

(** X1 at the range 5000 to 5002: the pool holds 5000 and 5001. *)
Lemma push_ports_ordered_range_witness :
  push_ports (Z.to_nat 65535) 5000 5002 ([] : list Z) = Some [5000%Z; 5001%Z].
Proof.
  exact (proj1 (push_ports_ordered_range 5000 5002 ([] : list Z)
                  ltac:(lia) ltac:(lia) ltac:(lia))).
Defined.

(** X2 at the reversed range 5002 to 5000: 65534 ports are pushed. *)
Lemma push_ports_reversed_range_witness :
  length (seqZ 5002 (65536 - 5002) ++ seqZ 0 5000) = Z.to_nat (65536 - (5002 - 5000)).
Proof.
  exact (proj2 (push_ports_reversed_range_wraps 5002 5000 ([] : list Z)
                  ltac:(lia) ltac:(lia) ltac:(lia))).
Defined.

(** X5 at a locator that has "storage" attached, for the name "cache". *)
Lemma detach_unknown_name_witness :
  detach checked "cache" sample_with_storage = Aborted ∧
  detach NDEBUG "cache" sample_with_storage = Undefined.
Proof. exact (detach_unknown_name "cache" sample_with_storage sample_cache_fresh). Defined.

(** X6 at the locator with "storage" and "cache" attached: "cache" is
    detached, "storage" stays. *)
Lemma detach_removes_first_entry_witness :
  ∃ service st',
    detach checked "cache" sample_attached = Returned (service, st') ∧
    (m_services st').*1 = ["storage"] ∧
    m_ports st' = [5001%Z] ∧
    m_router st' = remove_local "cache" (m_router sample_attached).
Proof.
  destruct (detach checked "cache" sample_attached) as [[service st']| | |] eqn:Hret;
    [|vm_compute in Hret; discriminate Hret..].
  exists service, st'. split; [reflexivity|].
  destruct (detach_removes_first_entry _ _ _ _ _ Hret)
    as (before & after & _ & _ & _ & Hrouter & _).
  vm_compute in Hret. injection Hret as <- <-.
  split; [reflexivity|]. split; [reflexivity | exact Hrouter].
Defined.

(** X7 at the same locator. *)
Lemma catalog_names_stay_distinct_witness :
  NoDup (m_services sample_attached).*1 ∧
  ∀ detached st', detach checked "cache" sample_attached = Returned (detached, st') →
    NoDup (m_services st').*1 ∧ ("cache" ∉ (m_services st').*1).
Proof.
  split; [exact sample_attached_distinct|].
  exact (proj2 (catalog_names_stay_distinct checked sample_from_string "cache"
                  (sample_actor "cache@node-b") sample_attached
                  sample_attached_distinct)).
Defined.

(** X8 at a locator with "storage" attached and the one free port 5001:
    "cache" is attached and detached again. *)
Lemma attach_then_detach_witness :
  ∃ running st2,
    detach checked "cache" sample_attached = Returned (running, st2) ∧
    metadata running = "cache@node-b" ∧
    m_services st2 = m_services sample_with_storage ∧
    m_ports st2 = [5001%Z].
Proof.
  exact (attach_then_detach checked sample_from_string "cache"
           (sample_actor "cache@node-b") sample_with_storage sample_attached
           sample_cache_fresh (λ _, eq_refl) sample_attach_run).
Defined.

(** X10 at the same run. *)
Lemma attach_extends_dump_witness :
  dump sample_attached = <["cache" := "cache@node-b"]> (dump sample_with_storage).
Proof.
  exact (proj1 (attach_extends_dump checked sample_from_string "cache"
                  (sample_actor "cache@node-b") sample_with_storage sample_attached
                  sample_attach_run)).
Defined.

(** X11 at the same run. *)
Lemma attach_then_resolve_witness :
  resolve 0 "cache" sample_attached = inr "cache@node-b".
Proof.
  exact (attach_then_resolve checked sample_from_string "cache"
           (sample_actor "cache@node-b") sample_with_storage sample_attached 0
           sample_cache_fresh sample_attach_run eq_refl).
Defined.

(** X12 at the same locator, which has no gateway. *)
Lemma detach_then_resolve_witness :
  ∃ detached st',
    detach checked "cache" sample_attached = Returned (detached, st') ∧
    resolve 0 "cache" st' = inl (error_t "the specified service is not available").
Proof.
  destruct (detach checked "cache" sample_attached) as [[detached st']| | |] eqn:Hret;
    [|vm_compute in Hret; discriminate Hret..].
  exists detached, st'. split; [reflexivity|].
  apply (detach_then_resolve checked "cache" sample_attached detached st' 0
           sample_attached_distinct eq_refl Hret).
  vm_compute in Hret. injection Hret as <- <-. reflexivity.
Defined.


(** X14 on a network where the first endpoint refuses: the loop connects
    to the second endpoint, logs the one refusal and does not try the
    third. *)
Lemma connect_first_witness :
  ∃ st', connect_first sample_refusing "node-a" sample_endpoints sample_federated
           = Returned (Some ("a2.example", 10053%Z), st') ∧
         m_remotes st' = m_remotes sample_federated ∧
         length (m_log st') = 1.
Proof.
  destruct (connect_first_picks_first_reachable sample_refusing "node-a"
              sample_endpoints sample_federated) as (Hfirst & _).
  destruct (Hfirst [("a1.example", 10053%Z)] ("a2.example", 10053%Z)
              [("a3.example", 10053%Z)])
    as (st' & Hret & _ & Hrem & Hlen).
  - reflexivity.
  - apply Forall_singleton. by exists 111%Z, "connection refused".
  - reflexivity.
  - exists st'. split; [exact Hret|]. split; [exact Hrem | exact Hlen].
Defined.

(** X16 at the locator that holds the snapshot of "node-a". *)
Lemma peer_entries_stay_armed_witness :
  reachable sample_synced ∧
  ∃ remote, m_remotes sample_synced !! peer_a1 = Some remote ∧
            timeout remote = Some 60%Z ∧ (channel remote).2 = ["synchronize"].
Proof.
  split; [exact sample_synced_reachable|].
  destruct (m_remotes sample_synced !! peer_a1) as [remote|] eqn:Hremote;
    [|vm_compute in Hremote; discriminate Hremote].
  exists remote. split; [reflexivity|].
  exact (peer_entries_stay_armed sample_synced sample_synced_reachable
           peer_a1 remote Hremote).
Defined.

(** X18 at the locator with "storage" attached twice. *)
Lemma attach_twice_witness :
  find_service "storage" (m_services sample_reattached)
    = find_service "storage" (m_services sample_with_storage) ∧
  is_Some (find_service "storage" (m_services sample_with_storage)) ∧
  dump sample_reattached !! "storage" = Some "storage@2" ∧
  length (filter (λ s, "storage" = s.1) (m_services sample_reattached)) = 2.
Proof.
  refine (attach_twice_serves_first_publishes_last sample_from_string "storage"
            (sample_actor "storage@2") sample_with_storage sample_reattached _ _).
  - vm_compute. apply list_elem_of_here.
  - vm_compute. reflexivity.
Defined.
